(** * bluebird-queue: a shallow embedding of [index.js]

    The queue object of [index.js] is modelled as a record, its methods as
    computations in a small state-and-exception monad over a [world] that
    holds the queue object together with the parts of the host it talks to:
    the [process.nextTick] queue, the table of pending [setTimeout] timers
    and the batches handed to [BlueBird.all] that have not settled yet.

    Every call of a callback ([onComplete], [onError]) is recorded in a
    trace.  The trace also carries two ghost entries, one per entry into
    [_dequeue] and one per batch built, so that statements can count them.

    What is taken as given about the surroundings:
    - a queued function, called with no argument, returns a value or throws,
      and an object exposing [then] settles one way; neither touches the
      queue;
    - a callback may throw but does not call back into the queue;
    - the numeric options are integers, as their [@type] says;
    - time is not measured: a host turn is the firing of a [nextTick]
      callback, of a timer, or the settlement of a batch, and the general
      theorems about whole runs hold for the turns taken in any order. *)

From Stdlib Require Import ZArith List String Bool Arith Lia.
Import ListNotations.

Local Open Scope string_scope.
Local Open Scope list_scope.

(** ** JavaScript values *)

(** The values that can reach the queue.  An object exposing [then] carries
    the way it eventually settles; a function carries what a call with no
    argument does.  Both stand for the supplied promise primitive, which is
    not re-implemented. *)
#[warnings="-register-all"]
Inductive jsval : Type :=
| VUndefined
| VNull
| VBool (b : bool)
| VNum (n : Z)
| VStr (s : string)
| VError (name message : string)
| VObject
| VThenable (o : outcome)
| VFunc (r : result)
| VArray (elems : list jsval)
with outcome : Type :=
| Fulfils (v : jsval)
| Rejects (e : jsval)
with result : Type :=
| Returns (v : jsval)
| Throws (e : jsval).

(** ToBoolean, as used by [if (x)] and [x || y]. *)
Definition truthy (v : jsval) : bool :=
  match v with
  | VUndefined | VNull => false
  | VBool b => b
  | VNum n => negb (n =? 0)%Z
  | VStr s => negb (String.eqb s "")
  | _ => true
  end.

(** [typeof v === 'function'] *)
Definition is_function (v : jsval) : bool :=
  match v with VFunc _ => true | _ => false end.

(** [v instanceof Array] *)
Definition is_array (v : jsval) : bool :=
  match v with VArray _ => true | _ => false end.

Definition is_thenable (v : jsval) : bool :=
  match v with VThenable _ => true | _ => false end.

(** ** Callbacks and the trace *)

(** The functions that can sit in [onComplete] and [onError]: the default
    [function() {}], a function supplied by the caller (which may throw), or
    the [resolve]/[reject] of the promise numbered [p] built by [start]. *)
Inductive callback : Type :=
| CbNoop
| CbUser (name : string) (raises : option jsval)
| CbResolve (p : nat)
| CbReject (p : nat).

Inductive event : Type :=
| EvDispatch (busy : bool)
| EvBatch (promises : list jsval)
| EvCall (cb : callback) (arg : jsval)
| EvUncaught (e : jsval).

(** ** The queue object and its host *)

Record engine : Type := mkEngine {
  concurrency : Z;
  delay : Z;
  interval : Z;
  onComplete : callback;
  onError : callback;
  _queue : list jsval;
  _queueWaiting : list nat;
  _processed : list jsval;
  _working : bool
}.

(** [BlueBird.all(promises).delay(d).spread(...).catch(c)]: the values being
    awaited, the delay, and the function given to [catch], which is read
    from [self.onError] when the chain is built. *)
Record batch : Type := mkBatch {
  b_promises : list jsval;
  b_delay : Z;
  b_catch : callback
}.

Record world : Type := mkWorld {
  self : engine;
  ticks : nat;
  timers : list (nat * Z);
  next_timer : nat;
  inflight : list batch;
  next_promise : nat;
  trace : list event
}.

Definition set_queue (q : list jsval) (e : engine) : engine :=
  mkEngine (concurrency e) (delay e) (interval e) (onComplete e) (onError e)
           q (_queueWaiting e) (_processed e) (_working e).

Definition set_queueWaiting (l : list nat) (e : engine) : engine :=
  mkEngine (concurrency e) (delay e) (interval e) (onComplete e) (onError e)
           (_queue e) l (_processed e) (_working e).

Definition set_processed (l : list jsval) (e : engine) : engine :=
  mkEngine (concurrency e) (delay e) (interval e) (onComplete e) (onError e)
           (_queue e) (_queueWaiting e) l (_working e).

Definition set_working (b : bool) (e : engine) : engine :=
  mkEngine (concurrency e) (delay e) (interval e) (onComplete e) (onError e)
           (_queue e) (_queueWaiting e) (_processed e) b.

Definition set_callbacks (c r : callback) (e : engine) : engine :=
  mkEngine (concurrency e) (delay e) (interval e) c r
           (_queue e) (_queueWaiting e) (_processed e) (_working e).

Definition with_self (e : engine) (w : world) : world :=
  mkWorld e (ticks w) (timers w) (next_timer w) (inflight w)
          (next_promise w) (trace w).

Definition with_ticks (n : nat) (w : world) : world :=
  mkWorld (self w) n (timers w) (next_timer w) (inflight w)
          (next_promise w) (trace w).

Definition with_timers (l : list (nat * Z)) (w : world) : world :=
  mkWorld (self w) (ticks w) l (next_timer w) (inflight w)
          (next_promise w) (trace w).

Definition with_inflight (l : list batch) (w : world) : world :=
  mkWorld (self w) (ticks w) (timers w) (next_timer w) l
          (next_promise w) (trace w).

Definition log (ev : event) (w : world) : world :=
  mkWorld (self w) (ticks w) (timers w) (next_timer w) (inflight w)
          (next_promise w) (trace w ++ [ev]).

(** ** The monad: state passing with JavaScript exceptions *)

Inductive completion (A : Type) : Type :=
| Normal (a : A)
| Thrown (e : jsval).
Arguments Normal {A} a.
Arguments Thrown {A} e.

Definition M (A : Type) : Type := world -> completion A * world.

Definition ret {A} (a : A) : M A := fun w => (Normal a, w).

Definition bind {A B} (m : M A) (k : A -> M B) : M B :=
  fun w => match m w with
           | (Normal a, w') => k a w'
           | (Thrown e, w') => (Thrown e, w')
           end.

Definition throw {A} (e : jsval) : M A := fun w => (Thrown e, w).

Definition try_catch {A} (body : M A) (handler : jsval -> M A) : M A :=
  fun w => match body w with
           | (Normal a, w') => (Normal a, w')
           | (Thrown e, w') => handler e w'
           end.

Definition this : M engine := fun w => (Normal (self w), w).

Definition update (f : engine -> engine) : M unit :=
  fun w => (Normal tt, with_self (f (self w)) w).

Definition emit (ev : event) : M unit := fun w => (Normal tt, log ev w).

Declare Scope js_scope.
Delimit Scope js_scope with js.
Notation "x <- m ;; k" := (bind m (fun x => k))
  (at level 61, m at next level, right associativity) : js_scope.
Notation "m ;; k" := (bind m (fun _ => k))
  (at level 61, right associativity) : js_scope.
Local Open Scope js_scope.

(** Calling a callback: the call is recorded, then a caller-supplied function
    may throw. *)
Definition invoke (cb : callback) (arg : jsval) : M unit :=
  emit (EvCall cb arg) ;;
  match cb with
  | CbUser _ (Some e) => throw e
  | _ => ret tt
  end.

(** [f()] for a value whose [typeof] is ['function']. *)
Definition call (f : jsval) : M jsval :=
  match f with
  | VFunc (Returns v) => ret v
  | VFunc (Throws e) => throw e
  | _ => throw (VError "TypeError" "not a function")
  end.

(** [setTimeout(function() { self._dequeue(); }, ms)]: the only closure ever
    given to [setTimeout] is the retry of [_dequeue], so a timer is its
    handle and its delay. *)
Definition setTimeout (ms : Z) : M nat :=
  fun w => (Normal (next_timer w),
            mkWorld (self w) (ticks w) (timers w ++ [(next_timer w, ms)])
                    (S (next_timer w)) (inflight w) (next_promise w)
                    (trace w)).

(** [clearTimeout(h)] *)
Definition clearTimeout (h : nat) : M unit :=
  fun w => (Normal tt,
            with_timers (filter (fun t => negb (Nat.eqb (fst t) h)) (timers w)) w).

(** ** Construction (index.js, lines 6-59) *)

(** The options object; [None] is an option left out. *)
Record options : Type := mkOptions {
  opt_concurrency : option Z;
  opt_delay : option Z;
  opt_interval : option Z;
  opt_onComplete : option callback;
  opt_onError : option callback
}.

Definition no_options : options := mkOptions None None None None None.

(** [x || d] for an integer option: absent and [0] are falsy. *)
Definition num_or (x : option Z) (d : Z) : Z :=
  match x with
  | Some n => if (n =? 0)%Z then d else n
  | None => d
  end.

(** [x || d] for a function option: a function is always truthy. *)
Definition fun_or (x : option callback) (d : callback) : callback :=
  match x with
  | Some c => c
  | None => d
  end.

Definition BlueBirdQueue (o : option options) : engine :=
  let options := match o with Some r => r | None => no_options end in
  mkEngine (num_or (opt_concurrency options) 4)
           (num_or (opt_delay options) 0)
           (num_or (opt_interval options) 5000)
           (fun_or (opt_onComplete options) CbNoop)
           (fun_or (opt_onError options) CbNoop)
           [] [] [] false.

(** A freshly constructed queue in a host with nothing pending. *)
Definition fresh (o : option options) : world :=
  mkWorld (BlueBirdQueue o) 0 [] 0 [] 0 [].

(** ** [add] and [addNow] (index.js, lines 85-104) *)

(** ['then' in v]: a [TypeError] unless [v] is an object. *)
Definition then_in (v : jsval) : M bool :=
  match v with
  | VThenable _ => ret true
  | VObject | VError _ _ | VArray _ | VFunc _ => ret false
  | VUndefined | VNull | VBool _ | VNum _ | VStr _ =>
      throw (VError "TypeError" "Cannot use 'in' operator to search for 'then'")
  end.

Definition no_promises : jsval := VError "Error" "No promises were provided".

Definition add (func : jsval) : M unit :=
  match func with
  | VArray elems => update (fun e => set_queue (_queue e ++ elems) e)
  | _ =>
      accepted <- (if is_function func then ret true else then_in func) ;;
      if accepted : bool
      then update (fun e => set_queue (_queue e ++ [func]) e)
      else throw no_promises
  end.

(** ** [_dequeue] (index.js, lines 140-183) *)

(** [self._queue.shift()] *)
Definition shift : M jsval :=
  e <- this ;;
  match _queue e with
  | [] => ret VUndefined
  | x :: rest => update (set_queue rest) ;; ret x
  end.

(** [if (self._queue[i])]: an index past the end reads [undefined]. *)
Definition queue_slot (i : nat) : M bool :=
  e <- this ;;
  ret (match nth_error (_queue e) i with
       | Some v => truthy v
       | None => false
       end).

(** The [for] loop of lines 158-163 with [n] iterations left to run and the
    loop variable at [i]. *)
Fixpoint collect (n i : nat) (promises : list jsval) : M (list jsval) :=
  match n with
  | O => ret promises
  | S n' =>
      present <- queue_slot i ;;
      if present : bool then
        promise <- shift ;;
        p <- (if is_function promise then call promise else ret promise) ;;
        collect n' (S i) (promises ++ [p])
      else collect n' (S i) promises
  end.

(** [BlueBird.all(promises).delay(self.delay).spread(...).catch(self.onError)]:
    the chain is handed to the host, to settle in a later turn. *)
Definition all_delay_spread_catch (promises : list jsval) : M unit :=
  e <- this ;;
  emit (EvBatch promises) ;;
  fun w => (Normal tt,
            with_inflight
              (inflight w ++ [mkBatch promises (delay e) (onError e)]) w).

Definition is_nil {A} (l : list A) : bool :=
  match l with [] => true | _ => false end.

Definition _dequeue : M unit :=
  e0 <- this ;;
  emit (EvDispatch (_working e0)) ;;
  try_catch
    (e <- this ;;
     if _working e then
       h <- setTimeout (interval e) ;;
       update (fun e => set_queueWaiting (_queueWaiting e ++ [h]) e)
     else
       update (set_working true) ;;
       promises <- collect (Z.to_nat (concurrency e)) 0 [] ;;
       if is_nil promises then update (set_working false)
       else all_delay_spread_catch promises)
    (fun ex =>
       update (set_working false) ;;
       e <- this ;;
       invoke (onError e) ex).

Definition addNow (func : jsval) : M unit :=
  add func ;;
  e <- this ;;
  if negb (_working e) then _dequeue else ret tt.

(** ** [start] (index.js, lines 67-76) *)

(** [process.nextTick(function() { self._dequeue(); })] *)
Definition nextTick : M unit :=
  fun w => (Normal tt, with_ticks (S (ticks w)) w).

(** [new BlueBird(executor)]: a fresh promise, named by its number. *)
Definition new_promise : M nat :=
  fun w => (Normal (next_promise w),
            mkWorld (self w) (ticks w) (timers w) (next_timer w) (inflight w)
                    (S (next_promise w)) (trace w)).

Definition start : M nat :=
  nextTick ;;
  p <- new_promise ;;
  update (set_callbacks (CbResolve p) (CbReject p)) ;;
  ret p.

(** ** [drain] (index.js, lines 113-138) *)

Fixpoint for_each {A} (f : A -> M unit) (l : list A) : M unit :=
  match l with
  | [] => ret tt
  | x :: rest => f x ;; for_each f rest
  end.

Fixpoint times (n : nat) (body : M unit) : M unit :=
  match n with
  | O => ret tt
  | S n' => body ;; times n' body
  end.

Definition drain : M unit :=
  e <- this ;;
  if is_nil (_queue e) then ret tt
  else
    try_catch
      (for_each clearTimeout (_queueWaiting e) ;;
       update (set_queueWaiting []) ;;
       e <- this ;;
       let batches := (Z.of_nat (List.length (_queue e)) / concurrency e)%Z in
       if (batches =? 0)%Z then
         update (set_working false) ;; _dequeue
       else
         times (Z.to_nat batches) (update (set_working false) ;; _dequeue))
      (fun ex => e <- this ;; invoke (onError e) ex).

(** ** Settlement of a batch (index.js, lines 170-177) *)

(** What [BlueBird.all] awaits for one element: a thenable settles its own
    way, anything else is a value already. *)
Definition awaited (v : jsval) : outcome :=
  match v with
  | VThenable o => o
  | _ => Fulfils v
  end.

(** [BlueBird.all]: every value in order, or a rejection.  Time is not
    modelled, so of several elements that reject the first in the list is
    the one reported. *)
Fixpoint bluebird_all (ps : list jsval) : list jsval + jsval :=
  match ps with
  | [] => inl []
  | p :: rest =>
      match awaited p with
      | Rejects e => inr e
      | Fulfils v =>
          match bluebird_all rest with
          | inl vs => inl (v :: vs)
          | inr e => inr e
          end
      end
  end.

(** The function given to [spread], called with the values of the batch. *)
Definition on_spread (arguments : list jsval) : M unit :=
  update (fun e => set_processed (_processed e ++ arguments) e) ;;
  e <- this ;;
  (if is_nil (_queue e) && is_nil (_queueWaiting e)
   then invoke (onComplete e) (VArray (_processed e))
   else ret tt) ;;
  update (set_working false) ;;
  e <- this ;;
  if negb (is_nil (_queue e)) && is_nil (_queueWaiting e)
  then _dequeue
  else ret tt.

(** The whole chain for one batch: [spread] on fulfilment, and [catch] for a
    rejection of the batch or an exception out of the [spread] function. *)
Definition settle (b : batch) : M unit :=
  match bluebird_all (b_promises b) with
  | inl values => try_catch (on_spread values) (invoke (b_catch b))
  | inr reason => invoke (b_catch b) reason
  end.

(** ** The host's scheduling loop *)

Inductive turn : Type :=
| Tick
| Timeout (h : nat)
| Settle (k : nat).

(** A host turn runs to completion; an exception that escapes it is
    recorded (an uncaught exception or an unhandled rejection). *)
Definition run_turn (m : M unit) (w : world) : world :=
  match m w with
  | (Normal _, w') => w'
  | (Thrown e, w') => log (EvUncaught e) w'
  end.

Fixpoint remove_nth {A} (k : nat) (l : list A) : list A :=
  match l, k with
  | [], _ => []
  | _ :: rest, O => rest
  | x :: rest, S k' => x :: remove_nth k' rest
  end.

Definition has_timer (h : nat) (w : world) : bool :=
  existsb (fun t => Nat.eqb (fst t) h) (timers w).

(** One turn of the host, when it is enabled. *)
Definition fire (t : turn) (w : world) : option world :=
  match t with
  | Tick =>
      match ticks w with
      | O => None
      | S n => Some (run_turn _dequeue (with_ticks n w))
      end
  | Timeout h =>
      if has_timer h w
      then Some (run_turn (clearTimeout h ;; _dequeue) w)
      else None
  | Settle k =>
      match nth_error (inflight w) k with
      | None => None
      | Some b =>
          Some (run_turn (settle b) (with_inflight (remove_nth k (inflight w)) w))
      end
  end.

(** The turn taken next: [nextTick] callbacks first, then the oldest batch
    in flight, then the oldest timer. *)
Definition next_turn (w : world) : option turn :=
  match ticks w, inflight w, timers w with
  | S _, _, _ => Some Tick
  | O, _ :: _, _ => Some (Settle 0)
  | O, [], (h, _) :: _ => Some (Timeout h)
  | O, [], [] => None
  end.

Definition quiescent (w : world) : bool :=
  match next_turn w with None => true | Some _ => false end.

Fixpoint run (fuel : nat) (w : world) : world :=
  match fuel with
  | O => w
  | S fuel' =>
      match next_turn w with
      | None => w
      | Some t =>
          match fire t w with
          | Some w' => run fuel' w'
          | None => w
          end
      end
  end.

(** The host taking the turns of [schedule] one after the other, in any
    order it likes; [None] when a turn is taken that is not enabled. *)
Fixpoint run_turns (schedule : list turn) (w : world) : option world :=
  match schedule with
  | [] => Some w
  | t :: rest =>
      match fire t w with
      | Some w' => run_turns rest w'
      | None => None
      end
  end.

(** ** Reading the trace *)

Definition calls (tr : list event) : list (callback * jsval) :=
  flat_map (fun ev => match ev with EvCall cb a => [(cb, a)] | _ => [] end) tr.

Definition batches_of (tr : list event) : list (list jsval) :=
  flat_map (fun ev => match ev with EvBatch ps => [ps] | _ => [] end) tr.

Definition dispatches (tr : list event) : list bool :=
  flat_map (fun ev => match ev with EvDispatch b => [b] | _ => [] end) tr.

Inductive promise_state : Type :=
| Pending
| Resolved (v : jsval)
| Rejected (e : jsval).

(** The state of the promise [p] returned by [start]: the first call of its
    [resolve] or [reject] settles it. *)
Fixpoint state_of (p : nat) (tr : list event) : promise_state :=
  match tr with
  | [] => Pending
  | EvCall (CbResolve q) v :: rest =>
      if Nat.eqb p q then Resolved v else state_of p rest
  | EvCall (CbReject q) e :: rest =>
      if Nat.eqb p q then Rejected e else state_of p rest
  | _ :: rest => state_of p rest
  end.

(** Running a method for its effect on the world. *)
Definition exec {A} (m : M A) (w : world) : world := snd (m w).

Definition outcome_of {A} (m : M A) (w : world) : completion A := fst (m w).

(** ** Work items, as the specification classifies them *)

(** A Factory-shaped callable or an Awaitable-shaped value. *)
Definition work_item (v : jsval) : bool := is_function v || is_thenable v.

(** An input the specification lets [add] accept: a work item or a sequence
    of work items. *)
Definition valid_input (v : jsval) : bool :=
  match v with
  | VArray elems => forallb work_item elems
  | _ => work_item v
  end.

(** What line 161 pushes for a queued item:
    [typeof promise === 'function' ? promise() : promise]. *)
Definition obtained (item : jsval) : jsval :=
  match item with
  | VFunc (Returns v) => v
  | _ => item
  end.

(** A queued item that dispatch can launch: truthy, and not a function that
    throws when called. *)
Definition launches (item : jsval) : bool :=
  match item with
  | VFunc (Throws _) => false
  | _ => truthy item
  end.

(** The value a work item produces when it succeeds. *)
Definition produces (item : jsval) : option jsval :=
  match item with
  | VFunc (Returns x) =>
      match awaited x with Fulfils v => Some v | Rejects _ => None end
  | VThenable (Fulfils v) => Some v
  | _ => None
  end.

(** The number of items the loop of lines 158-163 removes from a queue of
    [len] launchable items, with [n] iterations left and the loop variable
    at [i]: the test reads slot [i] of a queue that each [shift] shortens. *)
Fixpoint taken (n i len : nat) : nat :=
  match n with
  | O => O
  | S n' =>
      if Nat.ltb i len then S (taken n' (S i) (len - 1))
      else taken n' (S i) len
  end.

Definition raises (cb : callback) : option jsval :=
  match cb with
  | CbUser _ r => r
  | _ => None
  end.

(** ** Definitions used in the statements *)

(** What an idle [_dequeue] leaves alone, whatever the queue holds: the
    timers, [_queueWaiting], [_processed], the configuration and the
    callbacks; it throws only if [onError] does. *)
Record idle_dispatch (w : world) (r : completion unit) (w' : world) : Prop :=
  mkIdleDispatch {
  id_trace : exists tl, trace w' = trace w ++ EvDispatch false :: tl
                        /\ dispatches tl = [];
  id_timers : timers w' = timers w;
  id_next_timer : next_timer w' = next_timer w;
  id_waiting : _queueWaiting (self w') = _queueWaiting (self w);
  id_processed : _processed (self w') = _processed (self w);
  id_onError : onError (self w') = onError (self w);
  id_concurrency : concurrency (self w') = concurrency (self w);
  id_normal : raises (onError (self w)) = None -> r = Normal tt
}.

(** The exception [add] throws for an input that is no array, function or
    object with [then]. *)
Definition add_failure (v : jsval) : jsval :=
  match v with
  | VUndefined | VNull | VBool _ | VNum _ | VStr _ =>
      VError "TypeError" "Cannot use 'in' operator to search for 'then'"
  | _ => no_promises
  end.

(** A new queue marked busy, as when its only batch is in flight. *)
Definition busy_queue : world :=
  with_self (set_working true (BlueBirdQueue None)) (fresh None).

(** The queue object once the [spread] function has appended its arguments
    and cleared the flag. *)
Definition appended (arguments : list jsval) (w : world) : world :=
  with_self
    (set_working false
       (set_processed (_processed (self w) ++ arguments) (self w))) w.

Definition this_failed : jsval := VError "Error" "this failed".

(** One thenable that rejects, added to a new queue, then [start]. *)
Definition rejecting_run : world :=
  exec start (exec (add (VThenable (Rejects this_failed))) (fresh None)).

(** One function that throws when called, added to a new queue, then
    [start]. *)
Definition throwing_run : world :=
  exec start (exec (add (VFunc (Throws this_failed))) (fresh None)).

(** A function that returns a promise fulfilled with [v]. *)
Definition factory (v : jsval) : jsval :=
  VFunc (Returns (VThenable (Fulfils v))).

(** Seven factories producing 1..7, added one by one to a queue built with
    the default concurrency, then [start]. *)
Definition seven_run : world :=
  exec start
       (exec (for_each add
                (map (fun n => factory (VNum n)) [1; 2; 3; 4; 5; 6; 7]%Z))
             (fresh None)).

(** A queue ready for the graceful path: idle, no retry recorded, nothing
    pending in the host, a positive concurrency and a completion callback
    that returns. *)
Record graceful (w : world) : Prop := mkGraceful {
  g_idle : _working (self w) = false;
  g_waiting : _queueWaiting (self w) = [];
  g_ticks : ticks w = 0;
  g_inflight : inflight w = [];
  g_timers : timers w = [];
  g_concurrency : (0 < concurrency (self w))%Z;
  g_returns : raises (onComplete (self w)) = None
}.

(** The host has run the queue of [w] to the end with results [values]. *)
Definition finished (w : world) (values : list jsval) (w' : world) : Prop :=
  calls (trace w')
  = calls (trace w)
    ++ [(onComplete (self w), VArray (_processed (self w) ++ values))]
  /\ quiescent w' = true
  /\ _queue (self w') = []
  /\ _working (self w') = false
  /\ _processed (self w') = _processed (self w) ++ values.

(** One step of the loops of [drain]: the flag is forced to [false], then
    [_dequeue] is called. *)
Definition forced : M unit := update (set_working false) ;; _dequeue.

(** The timers left after [clearTimeout] on each handle of [l]. *)
Definition cancel (l : list nat) (ts : list (nat * Z)) : list (nat * Z) :=
  fold_left (fun ts h => filter (fun t => negb (Nat.eqb (fst t) h)) ts) l ts.

(** The number of calls of [_dequeue] the loops of [drain] ask for. *)
Definition drain_rounds (w : world) : nat :=
  let batches :=
    (Z.of_nat (List.length (_queue (self w))) / concurrency (self w))%Z in
  if (batches =? 0)%Z then 1 else Z.to_nat batches.

(** The queue once [drain] has cancelled the retry timers. *)
Definition cancelled (w : world) : world :=
  with_self (set_queueWaiting [] (self w))
            (with_timers (cancel (_queueWaiting (self w)) (timers w)) w).

(** The queue as the first forced [_dequeue] of [drain] leaves it when the
    item at the head throws: the item is gone and the flag is clear. *)
Definition head_dropped (rest : list jsval) (w : world) : world :=
  with_self (set_queue rest (set_working false (self (cancelled w))))
            (log (EvDispatch false) (cancelled w)).

(** Two factories queued behind a batch in flight. *)
Definition two_queued_busy : world :=
  exec (for_each add [factory (VNum 1); factory (VNum 2)]) busy_queue.

(** A queue whose item at the head throws when called, with a caller's
    [onError] that throws as well. *)
Definition throwing_head : world :=
  exec (add (VFunc (Throws this_failed)))
       (mkWorld (BlueBirdQueue
                   (Some (mkOptions None None None None
                            (Some (CbUser "onError"
                                          (Some (VStr "again")))))))
                0 [] 0 [] 0 []).

(** Eight factories in a busy queue with one retry timer recorded. *)
Definition contended_queue : world :=
  exec (fun w => _dequeue (with_self (set_working true (self w)) w))
       (exec (for_each add (map (fun n => factory (VNum n))
                                [1; 2; 3; 4; 5; 6; 7; 8]%Z))
             (fresh None)).

(** ** Definitions used in the further properties *)

(** A function that throws queued behind one good item. *)
Definition thrower_second : world :=
  exec (for_each add [factory (VNum 1); VFunc (Throws this_failed);
                      factory (VNum 3)])
       (fresh None).

(** One factory in a queue built with [concurrency: -1]. *)
Definition negative_concurrency_queue : world :=
  exec (add (factory (VNum 1)))
       (fresh (Some (mkOptions (Some (-1)%Z) None None None None))).

(** A sequence of falsy elements added to a new queue. *)
Definition falsy_items_queue : world :=
  exec (add (VArray [VNum 0; VNull])) (fresh None).





(** The batches a run of forced dispatches hands over. *)
Record forced_batches (n : nat) (w w' : world) (bs : list batch) : Prop :=
  mkForcedBatches {
  fb_inflight : inflight w' = inflight w ++ bs;
  fb_count : List.length bs = n;
  fb_each :
    Forall (fun b =>
              0 < List.length (b_promises b)
              /\ List.length (b_promises b)
                 <= Z.to_nat (concurrency (self w))
              /\ b_catch b = onError (self w)
              /\ b_delay b = delay (self w)) bs;
  fb_first :
    forall b rest, bs = b :: rest ->
      List.length (b_promises b)
      = Nat.min (Z.to_nat (concurrency (self w)))
                ((List.length (_queue (self w)) + 1) / 2);
  fb_conserved :
    map obtained (_queue (self w))
    = List.concat (map b_promises bs) ++ map obtained (_queue (self w'));
  fb_calls : calls (trace w') = calls (trace w);
  fb_timers : timers w' = timers w;
  fb_waiting : _queueWaiting (self w') = _queueWaiting (self w);
  fb_processed : _processed (self w') = _processed (self w)
}.

(** The reason a work item's asynchronous value rejects with. *)
Definition rejects (item : jsval) : option jsval :=
  match item with
  | VFunc (Returns x) =>
      match awaited x with Rejects e => Some e | Fulfils _ => None end
  | VThenable (Rejects e) => Some e
  | _ => None
  end.

(** A value [BlueBird.all] is given that rejects. *)
Definition rejecting (v : jsval) : bool :=
  match awaited v with
  | Rejects _ => true
  | Fulfils _ => false
  end.

(** A queued item whose asynchronous value does not reject. *)
Definition never_rejects (item : jsval) : bool :=
  match rejects item with
  | None => true
  | Some _ => false
  end.

(** The batches of the graceful path, counted in items.  Of a queue of
    [len] launchable items, with [c] the concurrency: the number of items
    that go in the batches before the one that holds the item at index
    [g], and the number that go in the batches up to and including that
    one.  Each batch takes [taken c 0] of what is left; [fuel] bounds the
    number of batches looked at. *)
Fixpoint batch_bounds (fuel c g len : nat) : nat * nat :=
  match fuel with
  | O => (0, 0)
  | S fuel' =>
      let k := taken c 0 len in
      if Nat.ltb g k then (0, k)
      else
        let (d, t) := batch_bounds fuel' c (g - k) (len - k) in
        (k + d, k + t)
  end.

(** The host has come to rest after the failure [e] of a batch of the queue
    of [w]: [onError] was called with it and no other callback was called;
    the results have grown by the first [d] of [values]; the first [t]
    items of the queue were handed over in batches and the others are still
    queued; and the flag is still set. *)
Definition failed (w : world) (e : jsval) (values : list jsval)
    (d t : nat) (w' : world) : Prop :=
  calls (trace w') = calls (trace w) ++ [(onError (self w), e)]
  /\ quiescent w' = true
  /\ _working (self w') = true
  /\ _processed (self w') = _processed (self w) ++ firstn d values
  /\ _queue (self w') = skipn t (_queue (self w))
  /\ List.concat (batches_of (trace w'))
     = List.concat (batches_of (trace w))
       ++ map obtained (firstn t (_queue (self w))).

(** How a run started by [start] has ended when the promise [p] was
    rejected with [e]: the reject is the only callback called, the flag is
    still set, the results are the first [d] of [values], the first [t] of
    [items] were handed over and the others are still queued. *)
Definition ended_rejected (p : nat) (e : jsval) (values items : list jsval)
    (d t : nat) (w' : world) : Prop :=
  state_of p (trace w') = Rejected e
  /\ calls (trace w') = [(CbReject p, e)]
  /\ _working (self w') = true
  /\ _processed (self w') = firstn d values
  /\ _queue (self w') = skipn t items
  /\ List.concat (batches_of (trace w')) = map obtained (firstn t items).



(** The flag is set with no batch in flight to clear it, and a dispatch
    attempt is pending. *)
Definition polling (w : world) : Prop :=
  _working (self w) = true
  /\ inflight w = []
  /\ (0 < ticks w \/ timers w <> []).

(** [start] called again on the queue a rejected batch left busy. *)
Definition restarted_after_rejection : world :=
  exec start (run 2 rejecting_run).



(** What construction and [start] set and nothing else writes. *)
Definition settings (e : engine)
  : Z * Z * Z * callback * callback :=
  (concurrency e, delay e, interval e, onComplete e, onError e).

(** Three factories added to a new queue, then [start] twice. *)
Definition three_started_twice : world :=
  exec start
    (exec start
       (exec (for_each add (map (fun n => factory (VNum n)) [1; 2; 3]%Z))
             (fresh None))).

(** Five factories added to a new queue, then [start] twice. *)
Definition five_started_twice : world :=
  exec start
    (exec start
       (exec (for_each add
                (map (fun n => factory (VNum n)) [1; 2; 3; 4; 5]%Z))
             (fresh None))).

(** One factory given to [addNow] on a queue built with an [onComplete]
    that throws. *)
Definition completion_throws : world :=
  exec (addNow (factory (VNum 1)))
       (fresh (Some (mkOptions None None None
                       (Some (CbUser "onComplete" (Some (VStr "stop"))))
                       None))).








(** * Properties *)

Ltac unfold_monad :=
  unfold exec, outcome_of, bind, ret, throw, try_catch, this, update, emit,
    invoke, setTimeout, nextTick, new_promise in *.

Lemma invoke_returns cb arg w :
  raises cb = None -> invoke cb arg w = (Normal tt, log (EvCall cb arg) w).
Proof.
  intros H. unfold_monad. destruct cb as [ | name r | p | p ]; try reflexivity.
  simpl in H. subst r. reflexivity.
Qed.

Lemma invoke_raises cb arg w ex :
  raises cb = Some ex -> invoke cb arg w = (Thrown ex, log (EvCall cb arg) w).
Proof.
  intros H. unfold_monad.
  destruct cb as [ | name r | p | p ]; simpl in H; try discriminate.
  subst r. reflexivity.
Qed.

Lemma calls_app tr1 tr2 : calls (tr1 ++ tr2) = calls tr1 ++ calls tr2.
Proof. unfold calls. apply flat_map_app. Qed.

Lemma batches_of_app tr1 tr2 :
  batches_of (tr1 ++ tr2) = batches_of tr1 ++ batches_of tr2.
Proof. unfold batches_of. apply flat_map_app. Qed.

Lemma dispatches_app tr1 tr2 :
  dispatches (tr1 ++ tr2) = dispatches tr1 ++ dispatches tr2.
Proof. unfold dispatches. apply flat_map_app. Qed.

(** *** The loop that fills a batch *)

(** The loop touches nothing but [_queue]. *)
Lemma collect_frame n : forall i promises w,
  exists q, snd (collect n i promises w) = with_self (set_queue q (self w)) w.
Proof.
  induction n as [ | n IH ]; intros i promises w.
  - exists (_queue (self w)). destruct w as [[] ]; reflexivity.
  - simpl. unfold queue_slot, shift. unfold_monad.
    destruct (match nth_error (_queue (self w)) i with
              | Some v => truthy v | None => false end).
    + destruct (_queue (self w)) as [ | x rest ] eqn:Hq.
      * simpl. destruct (IH (S i) (promises ++ [VUndefined]) w) as [q Hq'].
        exists q. exact Hq'.
      * destruct (is_function x) eqn:Hx.
        -- destruct x as [ | | | | | | | | [v | e] | ]; try discriminate; simpl.
           ++ destruct (IH (S i) (promises ++ [v])
                         (with_self (set_queue rest (self w)) w)) as [q Hq'].
              exists q. rewrite Hq'. destruct w as [[] ]; reflexivity.
           ++ exists rest. reflexivity.
        -- destruct (IH (S i) (promises ++ [x])
                         (with_self (set_queue rest (self w)) w)) as [q Hq'].
           exists q. rewrite Hq'. destruct w as [[] ]; reflexivity.
    + apply IH.
Qed.

Lemma launches_truthy item : launches item = true -> truthy item = true.
Proof. destruct item as [ | | | | | | | | [v | e] | ]; simpl; congruence. Qed.

Lemma launches_call item w :
  launches item = true ->
  (if is_function item then call item else ret item) w
  = (Normal (obtained item), w).
Proof.
  destruct item as [ | | | | | | | | [v | e] | ]; simpl; intros H;
    try discriminate; reflexivity.
Qed.

Lemma slot_of_launchable q i :
  forallb launches q = true ->
  match nth_error q i with Some v => truthy v | None => false end
  = Nat.ltb i (List.length q).
Proof.
  intros Hq. destruct (nth_error q i) as [v | ] eqn:Hn.
  - assert (Hlt : i < List.length q)
      by (apply nth_error_Some; congruence).
    apply Nat.ltb_lt in Hlt. rewrite Hlt.
    apply launches_truthy.
    rewrite forallb_forall in Hq. apply Hq.
    eapply nth_error_In; eauto.
  - apply nth_error_None in Hn. symmetry. apply Nat.ltb_ge. exact Hn.
Qed.

(** On a queue of launchable items the loop removes the first
    [taken n i (length q)] of them, in order, and throws nothing. *)
Lemma collect_launchable n : forall i promises w,
  forallb launches (_queue (self w)) = true ->
  collect n i promises w
  = (Normal (promises
             ++ map obtained
                    (firstn (taken n i (List.length (_queue (self w))))
                            (_queue (self w)))),
     with_self
       (set_queue (skipn (taken n i (List.length (_queue (self w))))
                         (_queue (self w)))
                  (self w)) w).
Proof.
  induction n as [ | n IH ]; intros i promises w Hq.
  - simpl. unfold_monad. rewrite app_nil_r. destruct w as [[] ]; reflexivity.
  - simpl. unfold queue_slot, shift. unfold_monad.
    rewrite (slot_of_launchable _ i Hq).
    destruct (Nat.ltb i (List.length (_queue (self w)))) eqn:Hlt.
    + destruct (_queue (self w)) as [ | x rest ] eqn:Hw.
      * apply Nat.ltb_lt in Hlt. simpl in Hlt. lia.
      * simpl in Hq. apply andb_prop in Hq. destruct Hq as [Hx Hrest].
        rewrite (launches_call x _ Hx).
        rewrite IH by (simpl; exact Hrest).
        simpl. rewrite Nat.sub_0_r. rewrite <- app_assoc. simpl.
        destruct w as [[] ]; reflexivity.
    + rewrite IH by exact Hq. reflexivity.
Qed.

Lemma taken_closed_form n : forall i len,
  taken n i len = Nat.min n ((len - i + 1) / 2).
Proof.
  induction n as [ | n IH ]; intros i len; cbn [taken].
  - reflexivity.
  - destruct (Nat.ltb i len) eqn:Hlt.
    + apply Nat.ltb_lt in Hlt. rewrite IH.
      destruct (Nat.eq_dec (len - i) 1) as [Hone | Hmore].
      * replace (len - 1 - S i + 1) with 1 by lia.
        replace (len - i + 1) with 2 by lia.
        change (1 / 2) with 0. change (2 / 2) with 1. lia.
      * replace (len - i + 1) with ((len - 1 - S i + 1) + 1 * 2) by lia.
        rewrite Nat.div_add by lia.
        lia.
    + apply Nat.ltb_ge in Hlt. rewrite IH.
      replace (len - S i + 1) with 1 by lia.
      replace (len - i + 1) with 1 by lia.
      change (1 / 2) with 0. lia.
Qed.

Lemma taken_le n : forall i len, taken n i len <= len.
Proof.
  induction n as [ | n IH ]; intros i len; simpl.
  - lia.
  - destruct (Nat.ltb i len) eqn:Hlt.
    + apply Nat.ltb_lt in Hlt. specialize (IH (S i) (len - 1)). lia.
    + apply IH.
Qed.

(** *** [_dequeue], case by case *)

Lemma dequeue_busy w :
  _working (self w) = true ->
  _dequeue w
  = (Normal tt,
     mkWorld (set_queueWaiting (_queueWaiting (self w) ++ [next_timer w])
                               (self w))
             (ticks w)
             (timers w ++ [(next_timer w, interval (self w))])
             (S (next_timer w)) (inflight w) (next_promise w)
             (trace w ++ [EvDispatch true])).
Proof.
  intros Hbusy. unfold _dequeue. unfold_monad. simpl.
  rewrite Hbusy. reflexivity.
Qed.

Ltac unfold_setters :=
  unfold with_self, with_ticks, with_timers, with_inflight, log,
    set_queue, set_queueWaiting, set_processed, set_working, set_callbacks
    in *.

Ltac open_world w :=
  destruct w as [[c d iv oc oe q qw pr wk] tk tm nt inf np tr];
  unfold with_self, with_ticks, with_timers, with_inflight, log,
    set_queue, set_queueWaiting, set_processed, set_working, set_callbacks
    in *;
  simpl in *.

Lemma dequeue_empty w :
  _working (self w) = false ->
  _queue (self w) = [] ->
  _dequeue w = (Normal tt, log (EvDispatch false) w).
Proof.
  intros Hidle Hq. unfold _dequeue. unfold_monad.
  open_world w. subst wk q.
  rewrite collect_launchable by reflexivity. simpl.
  rewrite firstn_nil, skipn_nil. reflexivity.
Qed.

(** An idle queue of launchable items: a batch is built and handed over. *)
Lemma dequeue_launchable w :
  _working (self w) = false ->
  _queue (self w) <> [] ->
  forallb launches (_queue (self w)) = true ->
  (0 < concurrency (self w))%Z ->
  let k := taken (Z.to_nat (concurrency (self w))) 0
                 (List.length (_queue (self w))) in
  let promises := map obtained (firstn k (_queue (self w))) in
  _dequeue w
  = (Normal tt,
     mkWorld (set_queue (skipn k (_queue (self w)))
                        (set_working true (self w)))
             (ticks w) (timers w) (next_timer w)
             (inflight w
              ++ [mkBatch promises (delay (self w)) (onError (self w))])
             (next_promise w)
             (trace w ++ [EvDispatch false; EvBatch promises])).
Proof.
  intros Hidle Hne Hq Hc k promises.
  unfold _dequeue, all_delay_spread_catch. unfold_monad.
  open_world w. subst wk.
  rewrite collect_launchable by exact Hq. simpl.
  fold k. fold promises.
  assert (Hk : is_nil promises = false).
  { subst promises k.
    destruct (Z.to_nat c) as [ | n ] eqn:Hn; [lia | ].
    destruct q as [ | x rest ]; [congruence | reflexivity]. }
  rewrite Hk. simpl. rewrite <- app_assoc. reflexivity.
Qed.

Lemma dequeue_idle w :
  _working (self w) = false ->
  idle_dispatch w (fst (_dequeue w)) (snd (_dequeue w)).
Proof.
  intros Hidle. unfold _dequeue, all_delay_spread_catch. unfold_monad.
  open_world w. subst wk.
  match goal with
  | |- context [collect ?n ?i ?ps ?w0] =>
      destruct (collect_frame n i ps w0) as [q' Hq'];
      destruct (collect n i ps w0) as [r w2]
  end.
  simpl in Hq'. subst w2.
  destruct r as [ps | ex]; simpl.
  - destruct (is_nil ps); simpl.
    + constructor; simpl; try reflexivity.
      exists []. split; reflexivity.
    + constructor; simpl; try reflexivity.
      exists [EvBatch ps]. rewrite <- app_assoc. split; reflexivity.
  - assert (Htr : exists tl,
               (tr ++ [EvDispatch false]) ++ [EvCall oe ex]
               = tr ++ EvDispatch false :: tl /\ dispatches tl = []).
    { exists [EvCall oe ex]. rewrite <- app_assoc. split; reflexivity. }
    destruct oe as [ | name [e' | ] | p | p ]; simpl;
      constructor; simpl; try reflexivity; try exact Htr; discriminate.
Qed.

(** When the item at the head is a function that throws, an idle
    [_dequeue] drops it, clears the flag and hands the exception to
    [onError]. *)
Lemma dequeue_head_throws w ex rest :
  _working (self w) = false ->
  _queue (self w) = VFunc (Throws ex) :: rest ->
  (0 < concurrency (self w))%Z ->
  _dequeue w
  = invoke (onError (self w)) ex
      (with_self (set_queue rest (self w)) (log (EvDispatch false) w)).
Proof.
  intros Hidle Hq Hc. unfold _dequeue. unfold_monad.
  open_world w. subst wk q.
  destruct (Z.to_nat c) as [ | n ] eqn:Hn; [lia | ].
  simpl. unfold queue_slot, shift. unfold_monad. simpl. reflexivity.
Qed.

(** *** Construction *)

(** C9: every falsy option is replaced by its default when the queue is
    built.  [interval: 0] gives 5000 and [concurrency: 0] gives 4, a zero
    there builds the same queue as leaving the option out, and so neither
    the interval nor the concurrency of a queue is ever zero. *)
Theorem falsy_options_take_defaults :
  (forall d i oc oe,
      BlueBirdQueue (Some (mkOptions (Some 0%Z) d i oc oe))
      = BlueBirdQueue (Some (mkOptions None d i oc oe))
      /\ concurrency (BlueBirdQueue (Some (mkOptions (Some 0%Z) d i oc oe)))
         = 4%Z)
  /\ (forall c i oc oe,
      BlueBirdQueue (Some (mkOptions c (Some 0%Z) i oc oe))
      = BlueBirdQueue (Some (mkOptions c None i oc oe))
      /\ delay (BlueBirdQueue (Some (mkOptions c (Some 0%Z) i oc oe)))
         = 0%Z)
  /\ (forall c d oc oe,
      BlueBirdQueue (Some (mkOptions c d (Some 0%Z) oc oe))
      = BlueBirdQueue (Some (mkOptions c d None oc oe))
      /\ interval (BlueBirdQueue (Some (mkOptions c d (Some 0%Z) oc oe)))
         = 5000%Z)
  /\ (forall c d i,
      onComplete (BlueBirdQueue (Some (mkOptions c d i None None))) = CbNoop
      /\ onError (BlueBirdQueue (Some (mkOptions c d i None None))) = CbNoop)
  /\ BlueBirdQueue None = BlueBirdQueue (Some no_options)
  /\ (forall o,
      concurrency (BlueBirdQueue o) <> 0%Z
      /\ interval (BlueBirdQueue o) <> 0%Z).
Proof.
  repeat split; try reflexivity.
  - destruct o as [[[c | ] d i oc oe] | ]; simpl; try discriminate.
    destruct (Z.eqb_spec c 0); [discriminate | assumption].
  - destruct o as [[c d [i | ] oc oe] | ]; simpl; try discriminate.
    destruct (Z.eqb_spec i 0); [discriminate | assumption].
Qed.

(** *** Enqueueing *)

Lemma add_sequence elems w :
  add (VArray elems) w
  = (Normal tt, with_self (set_queue (_queue (self w) ++ elems) (self w)) w).
Proof. reflexivity. Qed.

Lemma add_work_item v w :
  work_item v = true ->
  add v w
  = (Normal tt, with_self (set_queue (_queue (self w) ++ [v]) (self w)) w).
Proof.
  destruct v as [ | | | | | | | | | ]; simpl; intros H;
    try discriminate; reflexivity.
Qed.

(** C3, as the code has it: an input that is no sequence and is neither a
    function nor an object exposing [then] makes [add] and [addNow] throw
    at once and leaves the queue, and everything else, as it was; a work
    item is appended; a sequence is appended whole, its elements are not
    inspected. *)
Theorem add_checks_single_inputs_only :
  (forall v w,
      is_array v = false -> work_item v = false ->
      add v w = (Thrown (add_failure v), w)
      /\ addNow v w = (Thrown (add_failure v), w))
  /\ (forall v w,
      work_item v = true ->
      outcome_of (add v) w = Normal tt
      /\ _queue (self (exec (add v) w)) = _queue (self w) ++ [v])
  /\ (forall elems w,
      outcome_of (add (VArray elems)) w = Normal tt
      /\ _queue (self (exec (add (VArray elems)) w))
         = _queue (self w) ++ elems).
Proof.
  split; [ | split ].
  - intros v w Harr Hitem.
    assert (Hadd : add v w = (Thrown (add_failure v), w))
      by (destruct v as [ | | | | | | | | | ]; simpl in *;
          try discriminate; reflexivity).
    split; [exact Hadd | ].
    unfold addNow, bind. rewrite Hadd. reflexivity.
  - intros v w Hitem. unfold exec, outcome_of.
    rewrite (add_work_item v w Hitem). split; reflexivity.
  - intros elems w. unfold exec, outcome_of. rewrite add_sequence.
    split; reflexivity.
Qed.

Lemma add_checks_single_inputs_only_witness :
  is_array VObject = false /\ work_item VObject = false
  /\ add VObject (fresh None) = (Thrown no_promises, fresh None)
  /\ work_item (VThenable (Fulfils (VNum 1))) = true
  /\ _queue (self (exec (add (VThenable (Fulfils (VNum 1)))) (fresh None)))
     = [VThenable (Fulfils (VNum 1))].
Proof.
  split; [reflexivity | ]. split; [reflexivity | ].
  split.
  - exact (proj1 (proj1 add_checks_single_inputs_only VObject (fresh None)
                        eq_refl eq_refl)).
  - split; [reflexivity | ].
    exact (proj2 (proj1 (proj2 add_checks_single_inputs_only)
                        (VThenable (Fulfils (VNum 1))) (fresh None) eq_refl)).
Defined.

(** C3 as stated fails: a sequence holding an element that is neither a
    function nor an object with [then] is not a valid input, yet [add]
    returns normally and the element is in the queue. *)
Lemma add_sequence_unchecked_counterexample :
  valid_input (VArray [VObject]) = false
  /\ outcome_of (add (VArray [VObject])) (fresh None) = Normal tt
  /\ _queue (self (exec (add (VArray [VObject])) (fresh None))) = [VObject]
  /\ _queue (self (fresh None)) = [].
Proof. repeat split. Qed.

(** *** Dispatch while busy *)

(** C6: when [_dequeue] is entered with the busy flag set it returns
    normally, takes nothing from the queue, adds nothing to the results,
    calls no callback and builds no batch.  All it does is start one timer
    for [interval] milliseconds and append its handle to [_queueWaiting]
    (the trace gains only the ghost entry for the call). *)
Theorem dequeue_while_busy_only_schedules_retry w :
  _working (self w) = true ->
  outcome_of _dequeue w = Normal tt
  /\ _queue (self (exec _dequeue w)) = _queue (self w)
  /\ _processed (self (exec _dequeue w)) = _processed (self w)
  /\ calls (trace (exec _dequeue w)) = calls (trace w)
  /\ batches_of (trace (exec _dequeue w)) = batches_of (trace w)
  /\ timers (exec _dequeue w)
     = timers w ++ [(next_timer w, interval (self w))]
  /\ _queueWaiting (self (exec _dequeue w))
     = _queueWaiting (self w) ++ [next_timer w]
  /\ exec _dequeue w
     = mkWorld (set_queueWaiting (_queueWaiting (self w) ++ [next_timer w])
                                 (self w))
               (ticks w)
               (timers w ++ [(next_timer w, interval (self w))])
               (S (next_timer w)) (inflight w) (next_promise w)
               (trace w ++ [EvDispatch true]).
Proof.
  intros Hbusy. unfold exec, outcome_of. rewrite (dequeue_busy w Hbusy).
  simpl. rewrite calls_app, batches_of_app. simpl.
  rewrite !app_nil_r. repeat split.
Qed.

Lemma dequeue_while_busy_only_schedules_retry_witness :
  _working (self busy_queue) = true
  /\ timers (exec _dequeue busy_queue) = [(0, 5000%Z)]
  /\ _queueWaiting (self (exec _dequeue busy_queue)) = [0].
Proof.
  split; [reflexivity | ].
  pose proof (dequeue_while_busy_only_schedules_retry busy_queue eq_refl)
    as (_ & _ & _ & _ & _ & Htimers & Hwaiting & _).
  split; [exact Htimers | exact Hwaiting].
Defined.

(** *** [start] *)



(** *** Dispatch with nothing queued *)

Lemma run_quiescent fuel w : quiescent w = true -> run fuel w = w.
Proof.
  unfold quiescent. destruct fuel as [ | fuel ]; simpl; [reflexivity | ].
  destruct (next_turn w); [discriminate | reflexivity].
Qed.

Lemma fire_quiescent t w : quiescent w = true -> fire t w = None.
Proof.
  unfold quiescent, next_turn. intros H.
  destruct (ticks w) eqn:Hticks; [ | discriminate].
  destruct (inflight w) eqn:Hinf; [ | discriminate].
  destruct (timers w) as [ | [h ms] ts ] eqn:Htimers; [ | discriminate].
  destruct t as [ | h | k ]; simpl.
  - rewrite Hticks. reflexivity.
  - unfold has_timer. rewrite Htimers. reflexivity.
  - rewrite Hinf. destruct k; reflexivity.
Qed.

(** C10: [_dequeue] on an empty queue with no retry timer recorded calls
    neither callback and builds no batch; entered idle, it sets the flag,
    finds nothing to take and clears it again, so that only the ghost
    entry for the call is left.  Hence after [start] on a queue to which
    nothing was ever added, the one pending turn runs, nothing is left for
    the host to run, and the promise returned stays pending for ever,
    whatever turns the host takes. *)
Theorem dispatch_of_nothing_never_settles :
  (forall w,
      _queue (self w) = [] -> _queueWaiting (self w) = [] ->
      calls (trace (exec _dequeue w)) = calls (trace w)
      /\ inflight (exec _dequeue w) = inflight w
      /\ (_working (self w) = false ->
          _working (self (exec _dequeue w)) = false
          /\ exec _dequeue w = log (EvDispatch false) w))
  /\ (forall o fuel,
      let p := next_promise (fresh o) in
      let w1 := exec start (fresh o) in
      state_of p (trace (run fuel w1)) = Pending
      /\ calls (trace (run fuel w1)) = []
      /\ quiescent (run (S fuel) w1) = true)
  /\ (forall o schedule w',
      run_turns schedule (exec start (fresh o)) = Some w' ->
      state_of (next_promise (fresh o)) (trace w') = Pending
      /\ calls (trace w') = []).
Proof.
  split; [ | split ].
  - intros w Hq Hwait.
    destruct (_working (self w)) eqn:Hbusy.
    + unfold exec. rewrite (dequeue_busy w Hbusy). simpl.
      rewrite calls_app. simpl. rewrite app_nil_r.
      repeat split; discriminate.
    + unfold exec. rewrite (dequeue_empty w Hbusy Hq). simpl.
      rewrite calls_app. simpl. rewrite app_nil_r.
      repeat split. open_world w. exact Hbusy.
  - intros o fuel p w1.
    assert (Hstep : forall f, run (S f) w1
                              = log (EvDispatch false) (with_ticks 0 w1)).
    { intros f. subst w1. simpl. unfold run_turn.
      rewrite dequeue_empty by reflexivity.
      apply run_quiescent. reflexivity. }
    split; [ | split ].
    + destruct fuel as [ | fuel ]; [reflexivity | ].
      rewrite Hstep. reflexivity.
    + destruct fuel as [ | fuel ]; [reflexivity | ].
      rewrite Hstep. reflexivity.
    + rewrite Hstep. reflexivity.
  - intros o schedule w' Hrun.
    destruct schedule as [ | t schedule ]; simpl in Hrun.
    + inversion Hrun. split; reflexivity.
    + destruct t as [ | h | k ]; simpl in Hrun;
        [ | discriminate | destruct k; discriminate ].
      unfold run_turn in Hrun.
      rewrite dequeue_empty in Hrun by reflexivity.
      destruct schedule as [ | t' schedule ]; simpl in Hrun.
      * inversion Hrun. split; reflexivity.
      * rewrite fire_quiescent in Hrun by reflexivity. discriminate.
Qed.

Lemma dispatch_of_nothing_never_settles_witness :
  _queue (self (fresh None)) = []
  /\ _queueWaiting (self (fresh None)) = []
  /\ _working (self (fresh None)) = false
  /\ _working (self (exec _dequeue (fresh None))) = false
  /\ calls (trace (exec _dequeue (fresh None))) = [].
Proof.
  do 3 (split; [reflexivity | ]).
  pose proof (proj1 dispatch_of_nothing_never_settles (fresh None)
                    eq_refl eq_refl) as (Hcalls & _ & Hidle).
  split; [exact (proj1 (Hidle eq_refl)) | exact Hcalls].
Defined.

(** *** Settlement of a batch *)

Lemma bluebird_all_in_order ps : forall values,
  bluebird_all ps = inl values ->
  Forall2 (fun p v => awaited p = Fulfils v) ps values.
Proof.
  induction ps as [ | p ps IH ]; simpl; intros values H.
  - inversion H. constructor.
  - destruct (awaited p) as [v | e] eqn:Hp; [ | discriminate].
    destruct (bluebird_all ps) as [vs | e]; [ | discriminate].
    inversion H. subst values. constructor; [exact Hp | apply IH; reflexivity].
Qed.

Lemma on_spread_completes arguments w :
  _queue (self w) = [] -> _queueWaiting (self w) = [] ->
  raises (onComplete (self w)) = None ->
  on_spread arguments w
  = (Normal tt,
     log (EvCall (onComplete (self w))
                 (VArray (_processed (self w) ++ arguments)))
         (appended arguments w)).
Proof.
  intros Hq Hwait Hret. unfold on_spread, appended. unfold_monad.
  open_world w. subst q qw. simpl.
  destruct oc as [ | name r | p | p ]; try reflexivity.
  simpl in Hret. subst r. reflexivity.
Qed.

Lemma on_spread_redispatches arguments w :
  _queue (self w) <> [] -> _queueWaiting (self w) = [] ->
  on_spread arguments w = _dequeue (appended arguments w).
Proof.
  intros Hq Hwait. unfold on_spread, appended. unfold_monad.
  open_world w. subst qw.
  destruct q as [ | x rest ]; [congruence | ]. reflexivity.
Qed.

Lemma on_spread_waits arguments w :
  _queueWaiting (self w) <> [] ->
  on_spread arguments w = (Normal tt, appended arguments w).
Proof.
  intros Hwait. unfold on_spread, appended. unfold_monad.
  open_world w.
  destruct qw as [ | h rest ]; [congruence | ].
  destruct q; reflexivity.
Qed.

(** [onComplete] is called before the flag is cleared: when it throws, the
    values have been appended, the flag is as it was, and the exception is
    what the [catch] of the chain receives. *)
Lemma on_spread_completion_throws arguments w ex :
  _queue (self w) = [] -> _queueWaiting (self w) = [] ->
  raises (onComplete (self w)) = Some ex ->
  on_spread arguments w
  = (Thrown ex,
     log (EvCall (onComplete (self w))
                 (VArray (_processed (self w) ++ arguments)))
         (with_self
            (set_processed (_processed (self w) ++ arguments) (self w)) w)).
Proof.
  intros Hq Hwait Hthrows. unfold on_spread. unfold_monad.
  open_world w. subst q qw. simpl.
  destruct oc as [ | name r | p | p ]; simpl in Hthrows; try discriminate.
  subst r. reflexivity.
Qed.

Lemma invoke_frame cb arg w : self (snd (invoke cb arg w)) = self w.
Proof.
  unfold_monad. destruct cb as [ | name [e | ] | p | p ]; reflexivity.
Qed.

(** Whatever the callbacks do, the values of a fulfilled batch end up
    appended to [_processed]. *)
Lemma settle_appends b values w :
  bluebird_all (b_promises b) = inl values ->
  _processed (self (exec (settle b) w)) = _processed (self w) ++ values.
Proof.
  intros Hall. unfold exec, settle. rewrite Hall. unfold try_catch.
  destruct (_queueWaiting (self w)) as [ | h hs ] eqn:Hwait.
  - destruct (_queue (self w)) as [ | x rest ] eqn:Hq.
    + destruct (raises (onComplete (self w))) as [ex | ] eqn:Hraises.
      * rewrite (on_spread_completion_throws values w ex Hq Hwait Hraises).
        rewrite invoke_frame. reflexivity.
      * rewrite (on_spread_completes values w Hq Hwait Hraises).
        reflexivity.
    + rewrite (on_spread_redispatches values w)
        by (rewrite ?Hq; first [discriminate | assumption]).
      pose proof (dequeue_idle (appended values w) eq_refl) as Hidle.
      destruct (_dequeue (appended values w)) as [[[] | ex] w'];
        cbn [fst snd] in Hidle; rewrite ?invoke_frame;
        exact (id_processed _ _ _ Hidle).
  - rewrite (on_spread_waits values w)
      by (rewrite Hwait; discriminate).
    reflexivity.
Qed.

(** The [spread] function, case by case, in terms of [_queueWaiting] (the
    handles recorded, whether their timers are still pending or not).
    When every value of a batch fulfils, the values are appended to
    [_processed] in the order of the items.  If the queue and
    [_queueWaiting] are both empty, [onComplete] is called once with the
    whole of [_processed] and, if it returns, the flag is cleared; if the
    queue is not empty and [_queueWaiting] is, the flag is cleared and
    [_dequeue] runs at once, with no callback called in between; if
    [_queueWaiting] is not empty, the flag is cleared and nothing else
    happens.  ([appended values w] is [w] with the values appended and the
    flag cleared.) *)
Lemma settled_batch_appends_then_completes_or_redispatches w b values :
  bluebird_all (b_promises b) = inl values ->
  Forall2 (fun p v => awaited p = Fulfils v) (b_promises b) values
  /\ _processed (self (exec (settle b) w)) = _processed (self w) ++ values
  /\ _working (self (appended values w)) = false
  /\ (_queue (self w) = [] -> _queueWaiting (self w) = [] ->
      raises (onComplete (self w)) = None ->
      settle b w
      = (Normal tt,
         log (EvCall (onComplete (self w))
                     (VArray (_processed (self w) ++ values)))
             (appended values w))
      /\ calls (trace (exec (settle b) w))
         = calls (trace w)
           ++ [(onComplete (self w), VArray (_processed (self w) ++ values))])
  /\ (_queue (self w) <> [] -> _queueWaiting (self w) = [] ->
      settle b w
      = try_catch _dequeue (invoke (b_catch b)) (appended values w))
  /\ (_queueWaiting (self w) <> [] ->
      settle b w = (Normal tt, appended values w)
      /\ calls (trace (exec (settle b) w)) = calls (trace w)).
Proof.
  intros Hall.
  split; [apply bluebird_all_in_order; exact Hall | ].
  split; [apply settle_appends; exact Hall | ]. split; [reflexivity | ].
  unfold settle, exec. rewrite Hall.
  split; [ | split ].
  - intros Hq Hwait Hret. unfold try_catch.
    rewrite (on_spread_completes values w Hq Hwait Hret).
    split; [reflexivity | ].
    simpl. rewrite calls_app. reflexivity.
  - intros Hq Hwait. unfold try_catch.
    rewrite (on_spread_redispatches values w Hq Hwait). reflexivity.
  - intros Hwait. unfold try_catch.
    rewrite (on_spread_waits values w Hwait). split; reflexivity.
Qed.

Lemma settled_batch_appends_then_completes_or_redispatches_witness :
  (bluebird_all [VThenable (Fulfils (VStr "hello"))] = inl [VStr "hello"]
   /\ _queue (self busy_queue) = []
   /\ _queueWaiting (self busy_queue) = []
   /\ raises (onComplete (self busy_queue)) = None
   /\ calls (trace
               (exec (settle (mkBatch [VThenable (Fulfils (VStr "hello"))]
                                      0%Z CbNoop))
                     busy_queue))
      = [(CbNoop, VArray [VStr "hello"])])
  /\ (_queue (self two_queued_busy) <> []
      /\ _queueWaiting (self two_queued_busy) = []
      /\ batches_of
           (trace (exec (settle (mkBatch [VThenable (Fulfils (VStr "hello"))]
                                         0%Z CbNoop))
                        two_queued_busy))
         = [[VThenable (Fulfils (VNum 1))]])
  /\ (_queueWaiting (self contended_queue) <> []
      /\ calls (trace
                  (exec (settle (mkBatch [VThenable (Fulfils (VStr "hello"))]
                                         0%Z CbNoop))
                        contended_queue))
         = []).
Proof.
  split; [ | split ].
  - do 4 (split; [reflexivity | ]).
    pose proof (settled_batch_appends_then_completes_or_redispatches
                  busy_queue
                  (mkBatch [VThenable (Fulfils (VStr "hello"))] 0%Z CbNoop)
                  [VStr "hello"] eq_refl) as (_ & _ & _ & Hdone & _ & _).
    exact (proj2 (Hdone eq_refl eq_refl eq_refl)).
  - split; [discriminate | ]. split; [reflexivity | ].
    pose proof (settled_batch_appends_then_completes_or_redispatches
                  two_queued_busy
                  (mkBatch [VThenable (Fulfils (VStr "hello"))] 0%Z CbNoop)
                  [VStr "hello"] eq_refl) as (_ & _ & _ & _ & Hmore & _).
    unfold exec. rewrite (Hmore ltac:(discriminate) eq_refl). reflexivity.
  - split; [discriminate | ].
    pose proof (settled_batch_appends_then_completes_or_redispatches
                  contended_queue
                  (mkBatch [VThenable (Fulfils (VStr "hello"))] 0%Z CbNoop)
                  [VStr "hello"] eq_refl) as (_ & _ & _ & _ & _ & Hwait).
    exact (proj2 (Hwait ltac:(discriminate))).
Defined.

(** C5, as the code has it.  The [spread] function tests the length of
    [_queueWaiting], and the handle of a retry timer stays in that list
    once the timer has fired; [drain] alone empties it.  With [start]
    called twice, the second [_dequeue] finds the first batch in flight and
    records a retry.  When the last batch settles no timer is pending any
    more.  Still, with three items (the queue is then empty) no completion
    is reported, and with five items (one is then still queued) [_dequeue]
    is not entered again: in both runs the values are appended in the order
    of the items, the flag is cleared, and the host comes to rest with no
    callback called and the promise of [start] pending.  And since
    [onComplete] is called before the flag is cleared, a completion
    callback that throws leaves the flag set. *)
Theorem stale_retry_handle_stops_completion_and_redispatch :
  (let w4 := run 4 three_started_twice in
   let w5 := run 5 three_started_twice in
   (_queue (self w4) = [] /\ timers w4 = [] /\ ticks w4 = 0
    /\ inflight w4
       = [mkBatch [VThenable (Fulfils (VNum 3))] 0 (CbReject 1)]
    /\ _queueWaiting (self w4) = [0])
   /\ fire (Settle 0) w4 = Some w5
   /\ _processed (self w5) = [VNum 1; VNum 2; VNum 3]
   /\ _working (self w5) = false
   /\ calls (trace w5) = []
   /\ state_of 1 (trace w5) = Pending
   /\ quiescent w5 = true)
  /\ (let w4 := run 4 five_started_twice in
      let w5 := run 5 five_started_twice in
      (_queue (self w4) = [factory (VNum 5)] /\ timers w4 = []
       /\ ticks w4 = 0
       /\ inflight w4
          = [mkBatch [VThenable (Fulfils (VNum 4))] 0 (CbReject 1)]
       /\ _queueWaiting (self w4) = [0])
      /\ fire (Settle 0) w4 = Some w5
      /\ _processed (self w5) = [VNum 1; VNum 2; VNum 3; VNum 4]
      /\ _working (self w5) = false
      /\ _queue (self w5) = [factory (VNum 5)]
      /\ dispatches (trace w5) = dispatches (trace w4)
      /\ calls (trace w5) = []
      /\ state_of 1 (trace w5) = Pending
      /\ quiescent w5 = true)
  /\ (let w1 := run 1 completion_throws in
      (_queue (self completion_throws) = []
       /\ _queueWaiting (self completion_throws) = []
       /\ timers completion_throws = []
       /\ inflight completion_throws
          = [mkBatch [VThenable (Fulfils (VNum 1))] 0 CbNoop])
      /\ fire (Settle 0) completion_throws = Some w1
      /\ _processed (self w1) = [VNum 1]
      /\ calls (trace w1)
         = [(CbUser "onComplete" (Some (VStr "stop")), VArray [VNum 1]);
            (CbNoop, VStr "stop")]
      /\ _working (self w1) = true
      /\ quiescent w1 = true).
Proof.
  split; [ | split ]; vm_compute; repeat split; reflexivity.
Qed.

(** *** Failure of a batch *)

Lemma settle_rejected b reason w :
  bluebird_all (b_promises b) = inr reason ->
  settle b w = invoke (b_catch b) reason w.
Proof. intros H. unfold settle. rewrite H. reflexivity. Qed.

(** A batch that rejects changes nothing in the queue object, the flag
    included: the function given to [catch] is called with the reason and
    that is all. *)
Lemma settle_rejected_frame b reason w :
  bluebird_all (b_promises b) = inr reason ->
  self (exec (settle b) w) = self w
  /\ trace (exec (settle b) w) = trace w ++ [EvCall (b_catch b) reason].
Proof.
  intros H. unfold exec. rewrite (settle_rejected b reason w H).
  unfold_monad. destruct (b_catch b) as [ | name [e | ] | p | p ];
    split; reflexivity.
Qed.

(** C2 on the code: a batch that rejects has its failure passed to
    [onError] once and nothing more is dispatched, but the busy flag is
    still set when the host has nothing left to run; a later [_dequeue]
    then only schedules a retry.  An exception thrown while the batch is
    being built takes the other path, which does clear the flag. *)
Theorem rejected_batch_leaves_queue_busy :
  calls (trace (run 2 rejecting_run)) = [(CbReject 0, this_failed)]
  /\ state_of 0 (trace (run 2 rejecting_run)) = Rejected this_failed
  /\ batches_of (trace (run 2 rejecting_run))
     = [[VThenable (Rejects this_failed)]]
  /\ quiescent (run 2 rejecting_run) = true
  /\ _working (self (run 2 rejecting_run)) = true
  /\ timers (exec _dequeue (run 2 rejecting_run)) = [(0, 5000%Z)]
  /\ calls (trace (run 1 throwing_run)) = [(CbReject 0, this_failed)]
  /\ quiescent (run 1 throwing_run) = true
  /\ _working (self (run 1 throwing_run)) = false.
Proof. repeat split. Qed.

(** *** Sizes of the batches *)

(** C1 on the code: with seven items and the default concurrency 4 the
    queue is emptied in three batches of 4, 2 and 1 items, not in two
    batches of 4 and 3; the results still come out in the order 1..7. *)
Theorem seven_items_go_in_three_batches :
  concurrency (self seven_run) = 4%Z
  /\ List.length (_queue (self seven_run)) = 7
  /\ map (@List.length jsval) (batches_of (trace (run 4 seven_run)))
     = [4; 2; 1]
  /\ dispatches (trace (run 4 seven_run)) = [false; false; false]
  /\ quiescent (run 4 seven_run) = true
  /\ state_of 0 (trace (run 4 seven_run))
     = Resolved (VArray (map VNum [1; 2; 3; 4; 5; 6; 7]%Z)).
Proof. repeat split. Qed.

(** The size of the batch an idle [_dequeue] builds from [len] launchable
    items: half the queue, rounded up, capped by the concurrency. *)
Lemma batch_size w :
  _working (self w) = false ->
  _queue (self w) <> [] ->
  forallb launches (_queue (self w)) = true ->
  (0 < concurrency (self w))%Z ->
  map (@List.length jsval) (batches_of (trace (exec _dequeue w)))
  = map (@List.length jsval) (batches_of (trace w))
    ++ [Nat.min (Z.to_nat (concurrency (self w)))
                ((List.length (_queue (self w)) + 1) / 2)].
Proof.
  intros Hidle Hne Hq Hc. unfold exec.
  rewrite (dequeue_launchable w Hidle Hne Hq Hc). cbn [snd trace].
  rewrite batches_of_app, map_app. f_equal.
  cbn [batches_of flat_map app map].
  rewrite length_map, length_firstn.
  rewrite taken_closed_form, Nat.sub_0_r.
  f_equal.
  pose proof (Nat.Div0.div_le_upper_bound (List.length (_queue (self w)) + 1) 2
                (List.length (_queue (self w)))) as Hdiv.
  destruct (_queue (self w)) as [ | x rest ]; [congruence | ].
  cbn [List.length] in *. lia.
Qed.

(** *** The graceful path *)

Lemma produces_launches item v : produces item = Some v -> launches item = true.
Proof.
  destruct item as [ | | | | | | | [x | e] | [x | e] | ]; simpl;
    intros H; try discriminate; reflexivity.
Qed.

Lemma produces_work_item item v :
  produces item = Some v -> work_item item = true.
Proof.
  destruct item as [ | | | | | | | [x | e] | [x | e] | ]; simpl;
    intros H; try discriminate; reflexivity.
Qed.

Lemma produces_awaited item v :
  produces item = Some v -> awaited (obtained item) = Fulfils v.
Proof.
  destruct item as [ | | | | | | | [x | e] | [x | e] | ]; simpl;
    intros H; try discriminate.
  - congruence.
  - destruct (awaited x); congruence.
Qed.

Lemma produces_all_launch items : forall values,
  map produces items = map Some values -> forallb launches items = true.
Proof.
  induction items as [ | item items IH ]; intros values H; simpl.
  - reflexivity.
  - destruct values as [ | v values ]; simpl in H; [discriminate | ].
    inversion H as [[Hitem Hrest]].
    rewrite (produces_launches item v Hitem). simpl. eapply IH; eauto.
Qed.

Lemma produces_all_fulfil items : forall values,
  map produces items = map Some values ->
  bluebird_all (map obtained items) = inl values.
Proof.
  induction items as [ | item items IH ]; intros values H; simpl.
  - destruct values; [reflexivity | discriminate].
  - destruct values as [ | v values ]; simpl in H; [discriminate | ].
    inversion H as [[Hitem Hrest]].
    rewrite (produces_awaited item v Hitem), (IH values Hrest). reflexivity.
Qed.

Lemma produces_firstn k items values :
  map produces items = map Some values ->
  map produces (firstn k items) = map Some (firstn k values).
Proof. intros H. rewrite <- !firstn_map. congruence. Qed.

Lemma produces_skipn k items values :
  map produces items = map Some values ->
  map produces (skipn k items) = map Some (skipn k values).
Proof. intros H. rewrite <- !skipn_map. congruence. Qed.

Lemma taken_positive n len :
  0 < n -> 0 < len -> 0 < taken n 0 len.
Proof.
  intros Hn Hlen. destruct n as [ | n ]; [lia | ].
  destruct len as [ | len ]; [lia | ]. simpl. lia.
Qed.

Lemma enqueue_all items : forall values w,
  map produces items = map Some values ->
  for_each add items w
  = (Normal tt, with_self (set_queue (_queue (self w) ++ items) (self w)) w).
Proof.
  induction items as [ | item items IH ]; intros values w H; simpl.
  - unfold ret. rewrite app_nil_r. open_world w. reflexivity.
  - destruct values as [ | v values ]; simpl in H; [discriminate | ].
    inversion H as [[Hitem Hrest]].
    unfold bind. rewrite (add_work_item item w (produces_work_item _ _ Hitem)).
    rewrite (IH values _ Hrest).
    open_world w. rewrite <- app_assoc. reflexivity.
Qed.

Lemma run_settles_only_batch fuel w b :
  ticks w = 0 -> inflight w = [b] ->
  run (S fuel) w = run fuel (run_turn (settle b) (with_inflight [] w)).
Proof.
  intros Hticks Hinf. simpl. unfold next_turn. rewrite Hticks, Hinf.
  simpl. rewrite Hinf. reflexivity.
Qed.

(** One round of the graceful path: [_dequeue] on a ready queue leaves
    exactly one batch in flight and nothing else for the host to run; when
    that batch settles, either the run is finished or [_dequeue] has been
    called again on a ready queue holding the remaining items. *)
Lemma graceful_step w values :
  graceful w ->
  _queue (self w) <> [] ->
  map produces (_queue (self w)) = map Some values ->
  exists b k,
    0 < k
    /\ ticks (exec _dequeue w) = 0
    /\ timers (exec _dequeue w) = []
    /\ inflight (exec _dequeue w) = [b]
    /\ (skipn k (_queue (self w)) = [] ->
        finished w values
          (run_turn (settle b) (with_inflight [] (exec _dequeue w))))
    /\ (skipn k (_queue (self w)) <> [] ->
        exists w2,
          run_turn (settle b) (with_inflight [] (exec _dequeue w))
          = exec _dequeue w2
          /\ graceful w2
          /\ _queue (self w2) = skipn k (_queue (self w))
          /\ map produces (_queue (self w2)) = map Some (skipn k values)
          /\ calls (trace w2) = calls (trace w)
          /\ onComplete (self w2) = onComplete (self w)
          /\ _processed (self w2) ++ skipn k values
             = _processed (self w) ++ values).
Proof.
  intros Hg Hne Hvals.
  destruct Hg as [Hidle Hwait Hticks Hinf Htimers Hc Hret].
  pose proof (produces_all_launch _ _ Hvals) as Hlaunch.
  unfold exec.
  rewrite (dequeue_launchable w Hidle Hne Hlaunch Hc).
  set (k := taken (Z.to_nat (concurrency (self w))) 0
                  (List.length (_queue (self w)))).
  assert (Hk : 0 < k).
  { apply taken_positive; [lia | ].
    destruct (_queue (self w)); [congruence | simpl; lia]. }
  pose proof (produces_all_fulfil _ _ (produces_firstn k _ _ Hvals))
    as Hall.
  cbn [snd ticks timers inflight]. rewrite Hinf. cbn [app].
  eexists. exists k.
  split; [exact Hk | ]. split; [exact Hticks | ]. split; [exact Htimers | ].
  split; [reflexivity | ].
  unfold run_turn, settle. cbn [b_promises b_catch].
  rewrite Hall. unfold try_catch.
  match goal with
  | |- context [on_spread _ ?w0] => set (w1 := w0)
  end.
  split.
  - (* the last batch *)
    intros Hskip.
    rewrite (on_spread_completes (firstn k values) w1)
      by (subst w1; cbn; rewrite ?Hskip;
          first [reflexivity | assumption]).
    assert (Hvk : firstn k values = values).
    { apply firstn_all2.
      assert (Hl : List.length (skipn k (_queue (self w))) = 0)
        by (rewrite Hskip; reflexivity).
      rewrite length_skipn in Hl.
      rewrite <- (length_map Some values), <- Hvals, length_map. lia. }
    rewrite Hvk. subst w1. unfold finished, appended, quiescent, next_turn.
    unfold_setters. cbn. rewrite Hskip, Hticks, Htimers.
    rewrite !calls_app. cbn. rewrite !app_nil_r.
    repeat split.
  - (* more to do: the next batch is dispatched at once *)
    intros Hskip.
    rewrite (on_spread_redispatches (firstn k values) w1)
      by (subst w1; cbn; first [exact Hskip | assumption]).
    set (w2 := appended (firstn k values) w1).
    assert (Hq2 : _queue (self w2) = skipn k (_queue (self w)))
      by reflexivity.
    assert (Hg2 : graceful w2)
      by (subst w2 w1; constructor; cbn; assumption || reflexivity).
    assert (Hvals2 : map produces (_queue (self w2))
                     = map Some (skipn k values))
      by (rewrite Hq2; apply produces_skipn; exact Hvals).
    assert (Hne2 : _queue (self w2) <> []) by (rewrite Hq2; exact Hskip).
    exists w2.
    rewrite (dequeue_launchable w2 (g_idle _ Hg2) Hne2
               (produces_all_launch _ _ Hvals2) (g_concurrency _ Hg2)).
    split; [reflexivity | ]. split; [exact Hg2 | ].
    split; [exact Hq2 | ]. split; [exact Hvals2 | ].
    subst w2 w1. unfold appended. unfold_setters. cbn.
    rewrite !calls_app. cbn. rewrite !app_nil_r.
    rewrite <- !app_assoc, firstn_skipn.
    repeat split.
Qed.

Lemma finished_after_round w w2 values rest_values w' :
  calls (trace w2) = calls (trace w) ->
  onComplete (self w2) = onComplete (self w) ->
  _processed (self w2) ++ rest_values = _processed (self w) ++ values ->
  finished w2 rest_values w' -> finished w values w'.
Proof.
  unfold finished. intros Hcalls Hcb Hproc (H1 & H2 & H3 & H4 & H5).
  rewrite H1, H5, Hcalls, Hcb, Hproc. repeat split; assumption.
Qed.

(** With the turns taken in the order of [next_turn], and fuel for one
    turn per item, the run finishes. *)
Lemma graceful_loop m : forall w values,
  graceful w ->
  _queue (self w) <> [] ->
  List.length (_queue (self w)) <= m ->
  map produces (_queue (self w)) = map Some values ->
  forall fuel, m <= fuel ->
  finished w values (run fuel (exec _dequeue w)).
Proof.
  induction m as [ | m IH ]; intros w values Hg Hne Hlen Hvals fuel Hfuel.
  - destruct (_queue (self w)); [congruence | simpl in Hlen; lia].
  - destruct fuel as [ | fuel ]; [lia | ].
    destruct (graceful_step w values Hg Hne Hvals)
      as (b & k & Hk & Hticks & Htimers & Hinf & Hlast & Hmore).
    rewrite (run_settles_only_batch fuel _ b Hticks Hinf).
    destruct (skipn k (_queue (self w))) as [ | x rest ] eqn:Hskip.
    + specialize (Hlast eq_refl).
      rewrite run_quiescent; [exact Hlast | ].
      destruct Hlast as (_ & Hquiet & _). exact Hquiet.
    + destruct (Hmore ltac:(discriminate))
        as (w2 & Hw2 & Hg2 & Hq2 & Hvals2 & Hcalls & Hcb & Hproc).
      rewrite Hw2.
      apply (finished_after_round w w2 values (skipn k values));
        try assumption.
      apply IH; try assumption.
      * rewrite Hq2. discriminate.
      * rewrite Hq2. change (x :: rest) with ([x] ++ rest).
        assert (Hl : List.length (skipn k (_queue (self w)))
                     = List.length (x :: rest)) by (rewrite Hskip; reflexivity).
        rewrite length_skipn in Hl. cbn [List.length app] in *. lia.
      * lia.
Qed.

Lemma fire_only_batch t w b w' :
  ticks w = 0 -> timers w = [] -> inflight w = [b] ->
  fire t w = Some w' ->
  w' = run_turn (settle b) (with_inflight [] w).
Proof.
  intros Hticks Htimers Hinf Hfire.
  destruct t as [ | h | k ]; simpl in Hfire.
  - rewrite Hticks in Hfire. discriminate.
  - unfold has_timer in Hfire. rewrite Htimers in Hfire. discriminate.
  - rewrite Hinf in Hfire. destruct k as [ | k ]; simpl in Hfire.
    + inversion Hfire. reflexivity.
    + destruct k; discriminate.
Qed.

(** Whatever turns the host takes, and in whatever order, a run that has
    come to rest has finished. *)
Lemma graceful_any_schedule m : forall w values,
  graceful w ->
  _queue (self w) <> [] ->
  List.length (_queue (self w)) <= m ->
  map produces (_queue (self w)) = map Some values ->
  forall schedule w',
    run_turns schedule (exec _dequeue w) = Some w' ->
    quiescent w' = true ->
    finished w values w'.
Proof.
  induction m as [ | m IH ];
    intros w values Hg Hne Hlen Hvals schedule w' Hrun Hquiet.
  - destruct (_queue (self w)); [congruence | simpl in Hlen; lia].
  - destruct (graceful_step w values Hg Hne Hvals)
      as (b & k & Hk & Hticks & Htimers & Hinf & Hlast & Hmore).
    destruct schedule as [ | t schedule ]; simpl in Hrun.
    + inversion Hrun. subst w'.
      unfold quiescent, next_turn in Hquiet.
      rewrite Hticks, Hinf in Hquiet. discriminate.
    + destruct (fire t (exec _dequeue w)) as [w1 | ] eqn:Hfire;
        [ | discriminate].
      apply (fire_only_batch t _ b w1 Hticks Htimers Hinf) in Hfire.
      subst w1.
      destruct (skipn k (_queue (self w))) as [ | x rest ] eqn:Hskip.
      * specialize (Hlast eq_refl).
        destruct schedule as [ | t' schedule ]; simpl in Hrun.
        -- inversion Hrun. subst w'. exact Hlast.
        -- destruct Hlast as (_ & Hq & _).
           rewrite (fire_quiescent t' _ Hq) in Hrun. discriminate.
      * destruct (Hmore ltac:(discriminate))
          as (w2 & Hw2 & Hg2 & Hq2 & Hvals2 & Hcalls & Hcb & Hproc).
        rewrite Hw2 in Hrun.
        apply (finished_after_round w w2 values (skipn k values));
          try assumption.
        apply (IH w2 (skipn k values) Hg2) with (schedule := schedule);
          try assumption.
        -- rewrite Hq2. discriminate.
        -- rewrite Hq2.
           assert (Hl : List.length (skipn k (_queue (self w)))
                        = List.length (x :: rest))
             by (rewrite Hskip; reflexivity).
           rewrite length_skipn in Hl. cbn [List.length] in *. lia.
Qed.

Lemma run_tick_first fuel w n :
  ticks w = S n ->
  run (S fuel) w = run fuel (run_turn _dequeue (with_ticks n w)).
Proof.
  intros Hticks. simpl. unfold next_turn. rewrite Hticks.
  simpl. rewrite Hticks. reflexivity.
Qed.

Lemma resolved_by_only_call tr : forall q v,
  calls tr = [(CbResolve q, v)] -> state_of q tr = Resolved v.
Proof.
  induction tr as [ | ev tr IHtr ]; intros q v H; [discriminate | ].
  destruct ev as [ b | ps | cb arg | e ]; cbn in H |- *; auto.
  inversion H. subst. rewrite Nat.eqb_refl. reflexivity.
Qed.

(** C4: on the graceful path (items added to a new queue, then [start],
    every item succeeding) the promise returned by [start] is resolved with
    the values of the items in the order they were added, whatever the
    number of items and of batches; the completion callback is called once,
    with that list, and no other callback is called.  The host reaches that
    state within one turn per item and one more, and it is the only state
    in which any sequence of host turns can come to rest. *)
Theorem graceful_start_resolves_in_enqueue_order o items values :
  items <> [] ->
  map produces items = map Some values ->
  (0 < concurrency (BlueBirdQueue o))%Z ->
  let w0 := exec (for_each add items) (fresh o) in
  let p := next_promise w0 in
  outcome_of (for_each add items) (fresh o) = Normal tt
  /\ _queue (self w0) = items
  /\ (forall fuel,
      List.length items < fuel ->
      state_of p (trace (run fuel (exec start w0))) = Resolved (VArray values)
      /\ calls (trace (run fuel (exec start w0)))
         = [(CbResolve p, VArray values)]
      /\ quiescent (run fuel (exec start w0)) = true
      /\ _queue (self (run fuel (exec start w0))) = [])
  /\ (forall schedule w',
      run_turns schedule (exec start w0) = Some w' ->
      quiescent w' = true ->
      state_of p (trace w') = Resolved (VArray values)
      /\ calls (trace w') = [(CbResolve p, VArray values)]).
Proof.
  intros Hne Hvals Hc w0 p.
  assert (Hw0 : w0 = with_self (set_queue items (BlueBirdQueue o)) (fresh o))
    by (subst w0; unfold exec;
        rewrite (enqueue_all items values (fresh o) Hvals); reflexivity).
  subst p. unfold outcome_of.
  rewrite (enqueue_all items values (fresh o) Hvals). cbn [fst].
  clearbody w0. subst w0.
  split; [reflexivity | ]. split; [reflexivity | ].
  set (w1 := exec start _).
  set (w2 := with_ticks 0 w1).
  assert (Hq2 : _queue (self w2) = items) by reflexivity.
  assert (Hg2 : graceful w2)
    by (constructor; try reflexivity; exact Hc).
  assert (Hne2 : _queue (self w2) <> []) by (rewrite Hq2; exact Hne).
  assert (Hvals2 : map produces (_queue (self w2)) = map Some values)
    by (rewrite Hq2; exact Hvals).
  assert (Htick : run_turn _dequeue w2 = exec _dequeue w2).
  { unfold run_turn, exec.
    rewrite (dequeue_launchable w2 (g_idle _ Hg2) Hne2
               (produces_all_launch _ _ Hvals2) (g_concurrency _ Hg2)).
    reflexivity. }
  split.
  - intros fuel Hfuel.
    destruct fuel as [ | fuel ]; [lia | ].
    rewrite (run_tick_first fuel w1 0) by reflexivity.
    fold w2. rewrite Htick.
    destruct (graceful_loop (List.length items) w2 values Hg2 Hne2
                ltac:(rewrite Hq2; lia) Hvals2 fuel ltac:(lia))
      as (Hcalls & Hquiet & Hqueue & Hflag & Hproc).
    cbn in Hcalls.
    split; [apply resolved_by_only_call; exact Hcalls | ].
    split; [exact Hcalls | ].
    split; [exact Hquiet | exact Hqueue].
  - intros schedule w' Hrun Hquiet.
    destruct schedule as [ | t schedule ]; simpl in Hrun.
    + inversion Hrun. subst w'. discriminate.
    + destruct t as [ | h | k ]; simpl in Hrun;
        [ | discriminate | destruct k; discriminate ].
      fold w2 in Hrun. rewrite Htick in Hrun.
      destruct (graceful_any_schedule (List.length items) w2 values Hg2 Hne2
                  ltac:(rewrite Hq2; lia) Hvals2 schedule w' Hrun Hquiet)
        as (Hcalls & _).
      cbn in Hcalls.
      split; [apply resolved_by_only_call; exact Hcalls | exact Hcalls].
Qed.

Lemma graceful_start_resolves_in_enqueue_order_witness :
  map produces [factory (VStr "hello"); VThenable (Fulfils (VStr "test"))]
  = map Some [VStr "hello"; VStr "test"]
  /\ (0 < concurrency (BlueBirdQueue None))%Z
  /\ state_of 0
       (trace
          (run 3
             (exec start
                (exec (for_each add [factory (VStr "hello");
                                     VThenable (Fulfils (VStr "test"))])
                      (fresh None)))))
     = Resolved (VArray [VStr "hello"; VStr "test"]).
Proof.
  split; [reflexivity | ]. split; [reflexivity | ].
  pose proof (graceful_start_resolves_in_enqueue_order None
                [factory (VStr "hello"); VThenable (Fulfils (VStr "test"))]
                [VStr "hello"; VStr "test"]
                ltac:(discriminate) eq_refl eq_refl)
    as (_ & _ & Hrun & _).
  exact (proj1 (Hrun 3 ltac:(simpl; lia))).
Defined.

(** *** [drain] *)

Lemma for_each_clearTimeout l : forall w,
  for_each clearTimeout l w = (Normal tt, with_timers (cancel l (timers w)) w).
Proof.
  induction l as [ | h l IH ]; intros w; simpl.
  - unfold ret. open_world w. reflexivity.
  - unfold bind, clearTimeout. rewrite IH. open_world w. reflexivity.
Qed.

Lemma cancel_spec l : forall ts t,
  In t (cancel l ts) <-> In t ts /\ ~ In (fst t) l.
Proof.
  induction l as [ | h l IH ]; intros ts t; simpl.
  - tauto.
  - unfold cancel in *. simpl. rewrite IH, filter_In.
    rewrite negb_true_iff, Nat.eqb_neq. intuition congruence.
Qed.

Lemma forced_idle w :
  idle_dispatch w (fst (forced w)) (snd (forced w)).
Proof.
  unfold forced, bind, update.
  pose proof (dequeue_idle (with_self (set_working false (self w)) w)
                eq_refl) as [Htr Htm Hnt Hwq Hpr Hoe Hcc Hn].
  destruct (_dequeue (with_self (set_working false (self w)) w)) as [r w'].
  simpl in *. constructor; assumption.
Qed.

Lemma times_forced n : forall w,
  raises (onError (self w)) = None ->
  fst (times n forced w) = Normal tt
  /\ dispatches (trace (snd (times n forced w)))
     = dispatches (trace w) ++ repeat false n
  /\ timers (snd (times n forced w)) = timers w
  /\ _queueWaiting (self (snd (times n forced w))) = _queueWaiting (self w)
  /\ exists tl, trace (snd (times n forced w)) = trace w ++ tl.
Proof.
  induction n as [ | n IH ]; intros w Hret.
  - simpl. rewrite app_nil_r. repeat split.
    exists []. rewrite app_nil_r. reflexivity.
  - cbn [times]. unfold bind.
    pose proof (forced_idle w) as [(tl & Htr & Htl) Htm Hnt Hwq Hpr Hoe Hcc Hn].
    specialize (Hn Hret).
    destruct (forced w) as [r w1]. cbn [fst snd] in *. subst r.
    assert (Hret1 : raises (onError (self w1)) = None) by congruence.
    destruct (IH w1 Hret1) as (Hr & Hd & Ht & Hq & tl' & Hext).
    split; [exact Hr | ]. split; [ | split; [ | split ]; try congruence ].
    + rewrite Hd, Htr. rewrite dispatches_app. cbn [dispatches flat_map].
      fold (dispatches tl). rewrite Htl. cbn [app repeat].
      rewrite <- app_assoc. reflexivity.
    + exists (EvDispatch false :: tl ++ tl').
      rewrite Hext, Htr, <- app_assoc. reflexivity.
Qed.

Lemma times_one body w : times 1 body w = body w.
Proof.
  simpl. unfold bind, ret. destruct (body w) as [[[] | e] w']; reflexivity.
Qed.

Lemma drain_nonempty w :
  _queue (self w) <> [] ->
  drain w
  = try_catch (times (drain_rounds w) forced)
              (fun ex => e <- this ;; invoke (onError e) ex)
              (cancelled w).
Proof.
  intros Hne. unfold drain, drain_rounds, cancelled.
  unfold bind at 1. unfold this at 1.
  destruct (_queue (self w)) as [ | x rest ] eqn:Hq; [congruence | ].
  cbn [is_nil]. unfold try_catch.
  unfold bind at 1. rewrite for_each_clearTimeout.
  unfold bind at 1. unfold update at 1.
  unfold bind at 1. unfold this at 1.
  cbn [self with_self with_timers set_queueWaiting _queue concurrency].
  rewrite Hq.
  fold forced.
  destruct (Z.of_nat (List.length (x :: rest)) / concurrency (self w)
            =? 0)%Z.
  - rewrite times_one. reflexivity.
  - reflexivity.
Qed.

Lemma drain_rounds_positive w :
  (0 < concurrency (self w))%Z ->
  drain_rounds w
  = Nat.max 1 (List.length (_queue (self w))
               / Z.to_nat (concurrency (self w))).
Proof.
  intros Hc. unfold drain_rounds.
  set (len := List.length (_queue (self w))).
  assert (Hdiv : Z.to_nat (Z.of_nat len / concurrency (self w))
                 = len / Z.to_nat (concurrency (self w)))
    by (rewrite Z2Nat.inj_div, Nat2Z.id by lia; reflexivity).
  destruct (Z.eqb_spec (Z.of_nat len / concurrency (self w)) 0) as [Hz | Hnz].
  - rewrite <- Hdiv, Hz. reflexivity.
  - rewrite <- Hdiv.
    assert (0 <= Z.of_nat len / concurrency (self w))%Z
      by (apply Z.div_pos; lia).
    lia.
Qed.

Lemma in_calls_app cb arg tr1 tr2 :
  In (cb, arg) (calls (tr1 ++ EvCall cb arg :: tr2)).
Proof.
  rewrite calls_app. apply in_or_app. right. left. reflexivity.
Qed.

Lemma forced_head_throws w ex rest :
  _queue (self w) = VFunc (Throws ex) :: rest ->
  (0 < concurrency (self w))%Z ->
  forced (cancelled w)
  = invoke (onError (self w)) ex (head_dropped rest w).
Proof.
  intros Hq Hc. unfold forced, bind, update.
  rewrite (dequeue_head_throws _ ex rest); try reflexivity; assumption.
Qed.

Lemma drain_head_throws_raising w ex rest ex' :
  _queue (self w) = VFunc (Throws ex) :: rest ->
  (0 < concurrency (self w))%Z ->
  raises (onError (self w)) = Some ex' ->
  drain w
  = (Thrown ex',
     log (EvCall (onError (self w)) ex')
         (log (EvCall (onError (self w)) ex) (head_dropped rest w))).
Proof.
  intros Hq Hc Hraises.
  rewrite drain_nonempty by (rewrite Hq; discriminate).
  destruct (drain_rounds w) as [ | n ] eqn:Hrounds;
    [rewrite drain_rounds_positive in Hrounds by exact Hc; lia | ].
  unfold try_catch. cbn [times]. unfold bind at 1.
  rewrite (forced_head_throws w ex rest Hq Hc).
  rewrite (invoke_raises _ _ _ ex' Hraises).
  unfold bind, this.
  cbn [self log head_dropped with_self set_queue set_working onError
       cancelled set_queueWaiting].
  rewrite (invoke_raises _ _ _ ex' Hraises). reflexivity.
Qed.

Lemma drain_head_throws_returning w ex rest :
  _queue (self w) = VFunc (Throws ex) :: rest ->
  (0 < concurrency (self w))%Z ->
  raises (onError (self w)) = None ->
  exists tl,
    trace (snd (drain w))
    = trace w ++ EvDispatch false :: EvCall (onError (self w)) ex :: tl.
Proof.
  intros Hq Hc Hraises.
  rewrite drain_nonempty by (rewrite Hq; discriminate).
  destruct (drain_rounds w) as [ | n ] eqn:Hrounds;
    [rewrite drain_rounds_positive in Hrounds by exact Hc; lia | ].
  unfold try_catch. cbn [times]. unfold bind at 1.
  rewrite (forced_head_throws w ex rest Hq Hc).
  rewrite (invoke_returns _ _ _ Hraises).
  set (w1 := log (EvCall (onError (self w)) ex) (head_dropped rest w)).
  destruct (times_forced n w1 Hraises) as (Hr & _ & _ & _ & tl & Hext).
  destruct (times n forced w1) as [r w2]. cbn [fst snd] in *. subst r.
  cbn [snd]. exists tl. rewrite Hext. subst w1. unfold head_dropped, cancelled.
  unfold_setters. cbn. rewrite <- !app_assoc. reflexivity.
Qed.

Lemma drain_head_throws w ex rest :
  _queue (self w) = VFunc (Throws ex) :: rest ->
  (0 < concurrency (self w))%Z ->
  In (onError (self w), ex) (calls (trace (exec drain w)))
  /\ (forall ex',
      raises (onError (self w)) = Some ex' ->
      outcome_of drain w = Thrown ex'
      /\ calls (trace (exec drain w))
         = calls (trace w) ++ [(onError (self w), ex);
                               (onError (self w), ex')]).
Proof.
  intros Hq Hc. unfold exec, outcome_of.
  assert (Hraising : forall ex',
             raises (onError (self w)) = Some ex' ->
             fst (drain w) = Thrown ex'
             /\ calls (trace (snd (drain w)))
                = calls (trace w) ++ [(onError (self w), ex);
                                      (onError (self w), ex')]).
  { intros ex' Hex'.
    rewrite (drain_head_throws_raising w ex rest ex' Hq Hc Hex').
    split; [reflexivity | ].
    unfold head_dropped, cancelled. unfold_setters. cbn.
    rewrite !calls_app. cbn. rewrite app_nil_r, <- app_assoc.
    reflexivity. }
  split; [ | exact Hraising ].
  destruct (raises (onError (self w))) as [ex0 | ] eqn:Hraises.
  - destruct (Hraising ex0 eq_refl) as [_ Hcalls]. rewrite Hcalls.
    apply in_or_app. right. left. reflexivity.
  - destruct (drain_head_throws_returning w ex rest Hq Hc Hraises)
      as [tl Htl].
    rewrite Htl.
    change (trace w ++ EvDispatch false :: EvCall (onError (self w)) ex :: tl)
      with (trace w ++ [EvDispatch false]
            ++ EvCall (onError (self w)) ex :: tl).
    rewrite app_assoc. apply in_calls_app.
Qed.

(** C7: [drain] on an empty queue changes nothing and calls nothing.
    Otherwise it first cancels the timers recorded in [_queueWaiting] and
    empties that list; then, with [n] the quotient of the queue length by
    the concurrency, it calls [_dequeue] [n] times, or once if [n] is 0,
    each time entered with the flag forced to [false]; no timer is started.
    An exception thrown by an item while a batch is built is handed to
    [onError]; if [onError] itself throws, that exception leaves
    [_dequeue], is caught by [drain] and is handed to [onError] again. *)
Theorem drain_forces_dispatch w :
  (_queue (self w) = [] -> drain w = (Normal tt, w))
  /\ (_queue (self w) <> [] ->
      (0 < concurrency (self w))%Z ->
      raises (onError (self w)) = None ->
      let n := List.length (_queue (self w))
               / Z.to_nat (concurrency (self w)) in
      outcome_of drain w = Normal tt
      /\ _queueWaiting (self (exec drain w)) = []
      /\ (forall t, In t (timers (exec drain w))
                    <-> In t (timers w)
                        /\ ~ In (fst t) (_queueWaiting (self w)))
      /\ dispatches (trace (exec drain w))
         = dispatches (trace w)
           ++ repeat false (if Nat.eqb n 0 then 1 else n))
  /\ (forall ex rest,
      _queue (self w) = VFunc (Throws ex) :: rest ->
      (0 < concurrency (self w))%Z ->
      In (onError (self w), ex) (calls (trace (exec drain w)))
      /\ (forall ex',
          raises (onError (self w)) = Some ex' ->
          outcome_of drain w = Thrown ex'
          /\ calls (trace (exec drain w))
             = calls (trace w) ++ [(onError (self w), ex);
                                   (onError (self w), ex')])).
Proof.
  split; [ | split ].
  - intros Hq. unfold drain, bind, this. rewrite Hq. reflexivity.
  - intros Hne Hc Hret n. unfold exec, outcome_of.
    rewrite (drain_nonempty w Hne). unfold try_catch.
    assert (Hret' : raises (onError (self (cancelled w))) = None)
      by exact Hret.
    destruct (times_forced (drain_rounds w) (cancelled w) Hret')
      as (Hr & Hd & Ht & Hwq & _).
    destruct (times (drain_rounds w) forced (cancelled w)) as [r w'].
    cbn [fst snd] in *. subst r. cbn [fst snd].
    split; [reflexivity | ]. split; [exact Hwq | ]. split.
    + intros t. rewrite Ht. apply cancel_spec.
    + rewrite Hd. f_equal. f_equal.
      rewrite (drain_rounds_positive w Hc). fold n.
      destruct n; reflexivity.
  - intros ex rest Hq Hc. exact (drain_head_throws w ex rest Hq Hc).
Qed.

Lemma drain_forces_dispatch_witness :
  (_queue (self (fresh None)) = []
   /\ drain (fresh None) = (Normal tt, fresh None))
  /\ (_queue (self contended_queue) <> []
      /\ (0 < concurrency (self contended_queue))%Z
      /\ raises (onError (self contended_queue)) = None
      /\ _working (self contended_queue) = true
      /\ timers contended_queue = [(0, 5000%Z)]
      /\ _queueWaiting (self contended_queue) = [0]
      /\ _queueWaiting (self (exec drain contended_queue)) = []
      /\ dispatches (trace (exec drain contended_queue))
         = [true; false; false])
  /\ (_queue (self throwing_head) = [VFunc (Throws this_failed)]
      /\ raises (onError (self throwing_head)) = Some (VStr "again")
      /\ outcome_of drain throwing_head = Thrown (VStr "again")
      /\ calls (trace (exec drain throwing_head))
         = [(onError (self throwing_head), this_failed);
            (onError (self throwing_head), VStr "again")]).
Proof.
  split; [ | split ].
  - split; [reflexivity | ].
    exact (proj1 (drain_forces_dispatch (fresh None)) eq_refl).
  - split; [discriminate | ].
    do 5 (split; [reflexivity | ]).
    pose proof (proj1 (proj2 (drain_forces_dispatch contended_queue))
                      ltac:(discriminate) eq_refl eq_refl)
      as (_ & Hwaiting & _ & Hdispatches).
    split; [exact Hwaiting | exact Hdispatches].
  - do 2 (split; [reflexivity | ]).
    pose proof (proj2 (proj2 (drain_forces_dispatch throwing_head))
                      this_failed [] eq_refl eq_refl) as (_ & Hthrows).
    exact (Hthrows (VStr "again") eq_refl).
Defined.

(** * Further properties of the code *)

(** *** What an idle [_dequeue] takes, whatever the queue holds *)

(** The loop removes some [k] items from the head, at most one per
    iteration.  When it ends normally it has pushed what each of them gave,
    in order; when it throws, the item removed last is a function that
    threw. *)
Lemma collect_prefix n : forall i promises w,
  exists k,
    k <= n
    /\ k <= List.length (_queue (self w))
    /\ snd (collect n i promises w)
       = with_self (set_queue (skipn k (_queue (self w))) (self w)) w
    /\ match fst (collect n i promises w) with
       | Normal ps =>
           ps = promises ++ map obtained (firstn k (_queue (self w)))
       | Thrown ex =>
           exists j, k = S j
                     /\ nth_error (_queue (self w)) j = Some (VFunc (Throws ex))
       end.
Proof.
  induction n as [ | n IH ]; intros i promises w.
  - exists 0. simpl. rewrite app_nil_r.
    repeat split; try lia. open_world w. reflexivity.
  - simpl. unfold queue_slot, shift. unfold_monad.
    destruct (match nth_error (_queue (self w)) i with
              | Some v => truthy v | None => false end) eqn:Hslot.
    + destruct (_queue (self w)) as [ | x rest ] eqn:Hq.
      * destruct i; discriminate.
      * assert (Hcall :
                  (if is_function x then call x else ret x)
                    (with_self (set_queue rest (self w)) w)
                  = match x with
                    | VFunc (Throws ex) =>
                        (Thrown ex, with_self (set_queue rest (self w)) w)
                    | _ => (Normal (obtained x),
                            with_self (set_queue rest (self w)) w)
                    end)
          by (destruct x as [ | | | | | | | | [v | e] | ]; reflexivity).
        unfold ret in Hcall. rewrite Hcall. clear Hcall.
        destruct (IH (S i) (promises ++ [obtained x])
                     (with_self (set_queue rest (self w)) w))
          as (k & Hkn & Hkl & Hw & Hr).
        assert (Hstep :
                  exists k0,
                    k0 <= S n /\ k0 <= List.length (x :: rest)
                    /\ snd (collect n (S i) (promises ++ [obtained x])
                              (with_self (set_queue rest (self w)) w))
                       = with_self (set_queue (skipn k0 (x :: rest)) (self w)) w
                    /\ match fst (collect n (S i) (promises ++ [obtained x])
                                    (with_self (set_queue rest (self w)) w))
                       with
                       | Normal ps =>
                           ps = promises
                                ++ map obtained (firstn k0 (x :: rest))
                       | Thrown ex =>
                           exists j, k0 = S j
                                     /\ nth_error (x :: rest) j
                                        = Some (VFunc (Throws ex))
                       end).
        { exists (S k). cbn [self with_self set_queue _queue] in *.
          split; [lia | ]. split; [simpl; lia | ].
          split; [rewrite Hw; open_world w; reflexivity | ].
          destruct (fst (collect n (S i) (promises ++ [obtained x])
                           (with_self (set_queue rest (self w)) w))).
          - rewrite Hr, <- app_assoc. reflexivity.
          - destruct Hr as (j & Hj & Hnth). exists (S j).
            split; [lia | exact Hnth]. }
        destruct x as [ | | | | | | | | [v | e] | ]; try exact Hstep.
        exists 1. split; [lia | ]. split; [simpl; lia | ].
        split; [reflexivity | ]. exists 0. split; reflexivity.
    + destruct (IH (S i) promises w) as (k & Hkn & Hkl & Hw & Hr).
      exists k. split; [lia | ]. split; [exact Hkl | ].
      split; assumption.
Qed.

(** The three ways an idle [_dequeue] can go: nothing to take, a batch
    handed over, or a queued function that throws. *)
Lemma dequeue_idle_cases w :
  _working (self w) = false ->
  exists k,
    k <= Z.to_nat (concurrency (self w))
    /\ k <= List.length (_queue (self w))
    /\ ((k = 0 /\ _dequeue w = (Normal tt, log (EvDispatch false) w))
        \/ (0 < k
            /\ _dequeue w
               = (Normal tt,
                  mkWorld (set_queue (skipn k (_queue (self w)))
                                     (set_working true (self w)))
                          (ticks w) (timers w) (next_timer w)
                          (inflight w
                           ++ [mkBatch
                                 (map obtained (firstn k (_queue (self w))))
                                 (delay (self w)) (onError (self w))])
                          (next_promise w)
                          (trace w
                           ++ [EvDispatch false;
                               EvBatch (map obtained
                                          (firstn k (_queue (self w))))])))
        \/ (exists j ex,
               k = S j
               /\ nth_error (_queue (self w)) j = Some (VFunc (Throws ex))
               /\ _dequeue w
                  = invoke (onError (self w)) ex
                      (with_self (set_queue (skipn k (_queue (self w)))
                                            (self w))
                                 (log (EvDispatch false) w)))).
Proof.
  intros Hidle. unfold _dequeue, all_delay_spread_catch. unfold_monad.
  open_world w. subst wk.
  match goal with
  | |- context [collect ?n ?i ?ps ?w0] =>
      destruct (collect_prefix n i ps w0) as (k & Hkn & Hkl & Hw & Hr);
      destruct (collect n i ps w0) as [r w2]
  end.
  simpl in Hkl, Hw, Hr. subst w2.
  exists k. split; [exact Hkn | ]. split; [exact Hkl | ].
  destruct r as [ps | ex].
  - subst ps. destruct k as [ | k ].
    + left. split; [reflexivity | ]. reflexivity.
    + right. left. split; [lia | ].
      destruct q as [ | x rest ]; [simpl in Hkl; lia | ].
      simpl. rewrite <- app_assoc. reflexivity.
  - right. right. destruct Hr as (j & Hj & Hnth).
    exists j, ex. split; [exact Hj | ]. split; [exact Hnth | ].
    reflexivity.
Qed.

Lemma invoke_logs cb arg w : snd (invoke cb arg w) = log (EvCall cb arg) w.
Proof.
  unfold_monad. destruct cb as [ | name [e | ] | p | p ]; reflexivity.
Qed.

(** X1: an idle [_dequeue] removes at most [concurrency] items, always from
    the head of the queue, and leaves the others in their order; if it
    hands a batch over, the batch holds what the removed items gave, in
    queue order, there is at least one of them, and the flag is set. *)
Theorem idle_dequeue_takes_from_head_within_concurrency w :
  _working (self w) = false ->
  exists k,
    k <= Z.to_nat (concurrency (self w))
    /\ _queue (self w)
       = firstn k (_queue (self w)) ++ _queue (self (exec _dequeue w))
    /\ List.length (firstn k (_queue (self w))) = k
    /\ (inflight (exec _dequeue w) = inflight w
        \/ (0 < k
            /\ inflight (exec _dequeue w)
               = inflight w
                 ++ [mkBatch (map obtained (firstn k (_queue (self w))))
                             (delay (self w)) (onError (self w))]
            /\ _working (self (exec _dequeue w)) = true
            /\ outcome_of _dequeue w = Normal tt)).
Proof.
  intros Hidle.
  destruct (dequeue_idle_cases w Hidle)
    as (k & Hkn & Hkl & [(Hk & Hd) | [(Hk & Hd) | (j & ex & Hk & Hnth & Hd)]]);
    exists k; unfold exec, outcome_of; rewrite Hd;
    (split; [exact Hkn | ]).
  - subst k. simpl. split; [reflexivity | ]. split; [reflexivity | ].
    left. reflexivity.
  - cbn [fst snd self inflight set_queue _queue _working set_working].
    split; [symmetry; apply firstn_skipn | ].
    split; [apply firstn_length_le; exact Hkl | ].
    right. split; [exact Hk | ]. split; [reflexivity | ].
    split; reflexivity.
  - rewrite invoke_logs.
    cbn [self log with_self set_queue _queue inflight].
    split; [symmetry; apply firstn_skipn | ].
    split; [apply firstn_length_le; exact Hkl | ].
    left. reflexivity.
Qed.

Lemma idle_dequeue_takes_from_head_within_concurrency_witness :
  _working (self (exec (for_each add [factory (VNum 1); factory (VNum 2);
                                      factory (VNum 3)]) (fresh None)))
  = false
  /\ exists k,
      k <= 4
      /\ [factory (VNum 1); factory (VNum 2); factory (VNum 3)]
         = firstn k [factory (VNum 1); factory (VNum 2); factory (VNum 3)]
           ++ _queue (self (exec _dequeue
                              (exec (for_each add
                                       [factory (VNum 1); factory (VNum 2);
                                        factory (VNum 3)]) (fresh None)))).
Proof.
  split; [reflexivity | ].
  destruct (idle_dequeue_takes_from_head_within_concurrency
              (exec (for_each add [factory (VNum 1); factory (VNum 2);
                                   factory (VNum 3)]) (fresh None))
              eq_refl) as (k & Hk & Hq & _).
  exists k. split; [exact Hk | exact Hq].
Defined.

(** With every slot truthy, the loop reaches the item at [j] whenever [j] is
    below the number of items it would take; if that item is a function
    that throws and the ones before it launch, the loop throws there. *)
Lemma collect_throws n : forall i promises w j ex,
  forallb truthy (_queue (self w)) = true ->
  forallb launches (firstn j (_queue (self w))) = true ->
  nth_error (_queue (self w)) j = Some (VFunc (Throws ex)) ->
  j < taken n i (List.length (_queue (self w))) ->
  collect n i promises w
  = (Thrown ex,
     with_self (set_queue (skipn (S j) (_queue (self w))) (self w)) w).
Proof.
  induction n as [ | n IH ]; intros i promises w j ex Htruthy Hlaunch Hnth Hj.
  - simpl in Hj. lia.
  - cbn [taken] in Hj.
    destruct (Nat.ltb i (List.length (_queue (self w)))) eqn:Hlt.
    + simpl. unfold queue_slot, shift. unfold_monad.
      apply Nat.ltb_lt in Hlt.
      destruct (nth_error (_queue (self w)) i) as [v | ] eqn:Hi;
        [ | apply nth_error_None in Hi; lia ].
      assert (Hv : truthy v = true).
      { rewrite forallb_forall in Htruthy. apply Htruthy.
        eapply nth_error_In; eauto. }
      rewrite Hv.
      destruct (_queue (self w)) as [ | x rest ] eqn:Hq;
        [simpl in Hlt; lia | ].
      destruct j as [ | j ].
      * simpl in Hnth. inversion Hnth. subst x. reflexivity.
      * simpl in Hlaunch. apply andb_prop in Hlaunch.
        destruct Hlaunch as [Hx Hrest].
        rewrite (launches_call x _ Hx).
        simpl in Htruthy. apply andb_prop in Htruthy.
        destruct Htruthy as [_ Htruthy].
        simpl in Hnth, Hj. rewrite Nat.sub_0_r in Hj.
        pose proof (IH (S i) (promises ++ [obtained x])
                       (with_self (set_queue rest (self w)) w) j ex
                       Htruthy Hrest Hnth ltac:(cbn; lia)) as Hrec.
        rewrite Hrec. open_world w. reflexivity.
    + apply Nat.ltb_ge in Hlt. rewrite taken_closed_form in Hj.
      replace (List.length (_queue (self w)) - S i + 1) with 1 in Hj by lia.
      change (1 / 2) with 0 in Hj. lia.
Qed.

(** X2: when the loop of an idle [_dequeue] comes to a queued function that
    throws, the exception is passed to [onError] once, the flag is cleared
    and no batch is handed over; the items taken before the function in
    that call have left the queue with it and are in no batch, so they are
    never reported.  The loop comes to the item at [j] when [j] is below
    both the concurrency and half the queue length rounded up. *)
Theorem throwing_function_drops_items_taken_before_it w j ex :
  _working (self w) = false ->
  forallb truthy (_queue (self w)) = true ->
  forallb launches (firstn j (_queue (self w))) = true ->
  nth_error (_queue (self w)) j = Some (VFunc (Throws ex)) ->
  j < Nat.min (Z.to_nat (concurrency (self w)))
              ((List.length (_queue (self w)) + 1) / 2) ->
  _queue (self (exec _dequeue w)) = skipn (S j) (_queue (self w))
  /\ inflight (exec _dequeue w) = inflight w
  /\ batches_of (trace (exec _dequeue w)) = batches_of (trace w)
  /\ _processed (self (exec _dequeue w)) = _processed (self w)
  /\ _working (self (exec _dequeue w)) = false
  /\ calls (trace (exec _dequeue w))
     = calls (trace w) ++ [(onError (self w), ex)].
Proof.
  intros Hidle Htruthy Hlaunch Hnth Hj.
  assert (Hd : _dequeue w
               = invoke (onError (self w)) ex
                   (with_self (set_queue (skipn (S j) (_queue (self w)))
                                         (self w))
                              (log (EvDispatch false) w))).
  { assert (Htaken : j < taken (Z.to_nat (concurrency (self w))) 0
                               (List.length (_queue (self w))))
      by (rewrite taken_closed_form, Nat.sub_0_r; exact Hj).
    clear Hj. unfold _dequeue. unfold_monad. open_world w. subst wk.
    rewrite (collect_throws _ _ _ _ j ex) by (cbn; assumption).
    reflexivity. }
  unfold exec. rewrite Hd, invoke_logs.
  cbn [self log with_self set_queue _queue inflight trace _processed
       _working].
  rewrite !batches_of_app, !calls_app. cbn. rewrite !app_nil_r.
  repeat split; try reflexivity. exact Hidle.
Qed.

Lemma throwing_function_drops_items_taken_before_it_witness :
  _working (self thrower_second) = false
  /\ forallb truthy (_queue (self thrower_second)) = true
  /\ nth_error (_queue (self thrower_second)) 1
     = Some (VFunc (Throws this_failed))
  /\ 1 < Nat.min (Z.to_nat (concurrency (self thrower_second)))
                 ((List.length (_queue (self thrower_second)) + 1) / 2)
  /\ _queue (self (exec _dequeue thrower_second)) = [factory (VNum 3)]
  /\ inflight (exec _dequeue thrower_second) = []
  /\ calls (trace (exec _dequeue thrower_second)) = [(CbNoop, this_failed)].
Proof.
  do 3 (split; [reflexivity | ]).
  split; [vm_compute; lia | ].
  pose proof (throwing_function_drops_items_taken_before_it
                thrower_second 1 this_failed eq_refl eq_refl eq_refl eq_refl
                ltac:(vm_compute; lia))
    as (Hq & Hinf & _ & _ & _ & Hcalls).
  split; [exact Hq | ]. split; [exact Hinf | exact Hcalls].
Defined.

(** *** A queue that dispatch cannot enter *)

Lemma nth_error_skipn_head {A} (q : list A) : forall i,
  nth_error q i = nth_error (skipn i q) 0.
Proof.
  induction q as [ | x q IH ]; intros [ | i ]; simpl; auto.
Qed.

Lemma skipn_tail {A} (q : list A) : forall i x rest,
  skipn i q = x :: rest -> skipn (S i) q = rest.
Proof.
  induction q as [ | y q IH ]; intros [ | i ] x rest H; simpl in *;
    try discriminate.
  - inversion H. reflexivity.
  - destruct q as [ | z q' ].
    + destruct i; discriminate.
    + apply (IH i x rest H).
Qed.

(** When the slots the loop will read are all falsy or past the end, the
    loop takes nothing. *)
Lemma collect_nothing n : forall i promises w,
  forallb (fun v => negb (truthy v)) (firstn n (skipn i (_queue (self w))))
  = true ->
  collect n i promises w = (Normal promises, w).
Proof.
  induction n as [ | n IH ]; intros i promises w H.
  - reflexivity.
  - simpl. unfold queue_slot. unfold_monad.
    rewrite nth_error_skipn_head.
    destruct (skipn i (_queue (self w))) as [ | x rest ] eqn:Hskip.
    + simpl. apply IH.
      destruct (skipn (S i) (_queue (self w))) as [ | y ys ] eqn:Hs.
      * destruct n; reflexivity.
      * exfalso.
        assert (Hlen : List.length (skipn (S i) (_queue (self w)))
                       <= List.length (skipn i (_queue (self w))))
          by (rewrite !length_skipn; lia).
        rewrite Hs, Hskip in Hlen. simpl in Hlen. lia.
    + simpl in H |- *. apply andb_prop in H. destruct H as [Hx Hrest].
      apply negb_true_iff in Hx. rewrite Hx.
      apply IH. rewrite (skipn_tail _ _ _ _ Hskip). exact Hrest.
Qed.

Lemma dequeue_stuck w :
  _working (self w) = false ->
  forallb (fun v => negb (truthy v))
          (firstn (Z.to_nat (concurrency (self w))) (_queue (self w)))
  = true ->
  _dequeue w = (Normal tt, log (EvDispatch false) w).
Proof.
  intros Hidle Hstuck. unfold _dequeue. unfold_monad.
  open_world w. subst wk.
  rewrite collect_nothing by (cbn; exact Hstuck).
  reflexivity.
Qed.

(** X3: nothing checks that the concurrency is positive or that the
    elements of an added sequence are truthy.  When the first [concurrency]
    slots of the queue are all falsy, or the concurrency is negative, an
    idle [_dequeue] takes nothing and calls nothing; so after [start],
    whatever turns the host takes, no callback is ever called and the
    items stay queued, and after the one pending turn the host is at
    rest: the promise returned never settles. *)
Theorem start_on_unenterable_queue_never_settles w :
  _working (self w) = false ->
  ticks w = 0 -> inflight w = [] -> timers w = [] ->
  forallb (fun v => negb (truthy v))
          (firstn (Z.to_nat (concurrency (self w))) (_queue (self w)))
  = true ->
  exec _dequeue w = log (EvDispatch false) w
  /\ (forall schedule w',
      run_turns schedule (exec start w) = Some w' ->
      calls (trace w') = calls (trace w)
      /\ _queue (self w') = _queue (self w)
      /\ inflight w' = [])
  /\ (forall fuel, quiescent (run (S fuel) (exec start w)) = true).
Proof.
  intros Hidle Hticks Hinf Htimers Hstuck.
  split; [unfold exec; rewrite (dequeue_stuck w Hidle Hstuck); reflexivity | ].
  set (w1 := with_ticks 0 (exec start w)).
  assert (Hturn : run_turn _dequeue w1 = log (EvDispatch false) w1).
  { unfold run_turn. rewrite (dequeue_stuck w1); [reflexivity | | ].
    - exact Hidle.
    - exact Hstuck. }
  assert (Hrest : quiescent (log (EvDispatch false) w1) = true).
  { unfold quiescent, next_turn. cbn. rewrite Hinf, Htimers. reflexivity. }
  assert (Hfire : forall t w2, fire t (exec start w) = Some w2 ->
                               w2 = log (EvDispatch false) w1).
  { assert (Ht1 : ticks (exec start w) = 1)
      by (cbn; rewrite Hticks; reflexivity).
    assert (Hi1 : inflight (exec start w) = []) by exact Hinf.
    assert (Hm1 : timers (exec start w) = []) by exact Htimers.
    intros t w2 Hf. destruct t as [ | h | k ]; unfold fire in Hf.
    - rewrite Ht1 in Hf. fold w1 in Hf.
      rewrite Hturn in Hf. inversion Hf. reflexivity.
    - unfold has_timer in Hf. rewrite Hm1 in Hf. discriminate.
    - rewrite Hi1 in Hf. destruct k; discriminate. }
  split.
  - intros schedule w' Hrun.
    destruct schedule as [ | t schedule ]; cbn [run_turns] in Hrun.
    + inversion Hrun. subst w'. cbn. rewrite Hinf. repeat split.
    + destruct (fire t (exec start w)) as [w2 | ] eqn:Hf; [ | discriminate].
      apply Hfire in Hf. subst w2.
      destruct schedule as [ | t' schedule ]; cbn [run_turns] in Hrun.
      * inversion Hrun. subst w'. cbn. rewrite calls_app, Hinf. cbn.
        rewrite app_nil_r. repeat split.
      * rewrite (fire_quiescent t' _ Hrest) in Hrun. discriminate.
  - intros fuel.
    rewrite (run_tick_first fuel (exec start w) 0)
      by (cbn; rewrite Hticks; reflexivity).
    fold w1. rewrite Hturn. rewrite run_quiescent; exact Hrest.
Qed.

Lemma start_on_unenterable_queue_never_settles_witness :
  (concurrency (self negative_concurrency_queue) = (-1)%Z
   /\ _queue (self negative_concurrency_queue) = [factory (VNum 1)]
   /\ forall fuel,
       quiescent (run (S fuel) (exec start negative_concurrency_queue))
       = true)
  /\ (outcome_of (add (VArray [VNum 0; VNull])) (fresh None) = Normal tt
      /\ forall schedule w',
          run_turns schedule (exec start falsy_items_queue) = Some w' ->
          calls (trace w') = []
          /\ _queue (self w') = [VNum 0; VNull]
          /\ inflight w' = []).
Proof.
  split.
  - do 2 (split; [reflexivity | ]).
    exact (proj2 (proj2 (start_on_unenterable_queue_never_settles
                           negative_concurrency_queue
                           eq_refl eq_refl eq_refl eq_refl eq_refl))).
  - split; [reflexivity | ].
    exact (proj1 (proj2 (start_on_unenterable_queue_never_settles
                           falsy_items_queue
                           eq_refl eq_refl eq_refl eq_refl eq_refl))).
Defined.

(** *** [add], one by one or in bulk *)

Lemma add_each_work_item items : forall w,
  forallb work_item items = true ->
  for_each add items w
  = (Normal tt, with_self (set_queue (_queue (self w) ++ items) (self w)) w).
Proof.
  induction items as [ | item items IH ]; intros w H; simpl.
  - unfold ret. rewrite app_nil_r. open_world w. reflexivity.
  - simpl in H. apply andb_prop in H. destruct H as [Hitem Hrest].
    unfold bind. rewrite (add_work_item item w Hitem).
    rewrite (IH _ Hrest).
    open_world w. rewrite <- app_assoc. reflexivity.
Qed.

(** X4: adding work items one after the other and adding them as one
    sequence give the same state, and adding a sequence in two parts is
    adding it whole.  In each case the items go to the tail in their order,
    the items already queued keep theirs, and nothing else changes: no
    dispatch, no timer, no callback. *)
Theorem add_in_bulk_is_add_one_by_one items more w :
  forallb work_item items = true ->
  for_each add items w = add (VArray items) w
  /\ (add (VArray items) ;; add (VArray more)) w
     = add (VArray (items ++ more)) w
  /\ exec (for_each add items) w
     = mkWorld (set_queue (_queue (self w) ++ items) (self w))
               (ticks w) (timers w) (next_timer w) (inflight w)
               (next_promise w) (trace w).
Proof.
  intros Hitems. unfold exec.
  rewrite (add_each_work_item items w Hitems), !add_sequence.
  split; [reflexivity | ]. split; [ | reflexivity ].
  unfold bind. rewrite !add_sequence.
  open_world w. rewrite <- app_assoc. reflexivity.
Qed.

Lemma add_in_bulk_is_add_one_by_one_witness :
  forallb work_item [factory (VNum 1); VThenable (Fulfils (VNum 2))] = true
  /\ for_each add [factory (VNum 1); VThenable (Fulfils (VNum 2))] busy_queue
     = add (VArray [factory (VNum 1); VThenable (Fulfils (VNum 2))])
           busy_queue.
Proof.
  split; [reflexivity | ].
  exact (proj1 (add_in_bulk_is_add_one_by_one
                  [factory (VNum 1); VThenable (Fulfils (VNum 2))] []
                  busy_queue eq_refl)).
Defined.

(** *** [addNow] *)

(** [add] either throws and changes nothing, or appends at the tail and
    changes nothing else. *)
Lemma add_cases v w :
  (exists items,
      add v w
      = (Normal tt,
         with_self (set_queue (_queue (self w) ++ items) (self w)) w))
  \/ (exists e, add v w = (Thrown e, w)).
Proof.
  destruct v as [ | | | | | | | | | elems ];
    try (right; eexists; reflexivity);
    left; eexists; reflexivity.
Qed.

(** X5: [addNow] calls [_dequeue] only when the queue is idle, so unlike a
    direct [_dequeue] it never starts a retry timer and never adds to
    [_queueWaiting]; it never touches the results either.  On a busy queue
    it is [add] and nothing more: the new items wait for a later
    dispatch. *)
Theorem addNow_never_schedules_a_retry v w :
  timers (exec (addNow v) w) = timers w
  /\ next_timer (exec (addNow v) w) = next_timer w
  /\ _queueWaiting (self (exec (addNow v) w)) = _queueWaiting (self w)
  /\ _processed (self (exec (addNow v) w)) = _processed (self w)
  /\ (_working (self w) = true -> addNow v w = add v w).
Proof.
  unfold exec.
  destruct (add_cases v w) as [(items & Hadd) | (e & Hadd)].
  - set (w1 := with_self (set_queue (_queue (self w) ++ items) (self w)) w)
      in *.
    destruct (_working (self w)) eqn:Hflag.
    + assert (Hnow : addNow v w = (Normal tt, w1))
        by (unfold addNow, bind, this; rewrite Hadd; subst w1;
            cbn [self with_self set_queue _working]; rewrite Hflag;
            reflexivity).
      rewrite Hnow, Hadd. repeat split.
    + assert (Hnow : addNow v w = _dequeue w1)
        by (unfold addNow, bind, this; rewrite Hadd; subst w1;
            cbn [self with_self set_queue _working]; rewrite Hflag;
            reflexivity).
      rewrite Hnow.
      pose proof (dequeue_idle w1 Hflag) as Hidle.
      rewrite (id_timers _ _ _ Hidle), (id_next_timer _ _ _ Hidle),
        (id_waiting _ _ _ Hidle), (id_processed _ _ _ Hidle).
      repeat split. discriminate.
  - assert (Hnow : addNow v w = (Thrown e, w))
      by (unfold addNow, bind; rewrite Hadd; reflexivity).
    rewrite Hnow, Hadd. repeat split.
Qed.

Lemma addNow_never_schedules_a_retry_witness :
  _working (self busy_queue) = true
  /\ addNow (factory (VNum 1)) busy_queue = add (factory (VNum 1)) busy_queue.
Proof.
  split; [reflexivity | ].
  exact (proj2 (proj2 (proj2 (proj2
           (addNow_never_schedules_a_retry (factory (VNum 1)) busy_queue))))
           eq_refl).
Defined.




(** *** A retry, once recorded, blocks completion *)











(** *** What [drain] puts in flight *)

Lemma forallb_skipn {A} (f : A -> bool) (l : list A) : forall k,
  forallb f l = true -> forallb f (skipn k l) = true.
Proof.
  induction l as [ | x l IH ]; intros [ | k ] H; simpl in *; auto.
  apply andb_prop in H. apply IH. tauto.
Qed.

(** A forced [_dequeue] on a non-empty queue of launchable items always
    hands a batch over, whatever the flag was. *)
Lemma forced_launchable w :
  _queue (self w) <> [] ->
  forallb launches (_queue (self w)) = true ->
  (0 < concurrency (self w))%Z ->
  let k := taken (Z.to_nat (concurrency (self w))) 0
                 (List.length (_queue (self w))) in
  let promises := map obtained (firstn k (_queue (self w))) in
  forced w
  = (Normal tt,
     mkWorld (set_queue (skipn k (_queue (self w)))
                        (set_working true (self w)))
             (ticks w) (timers w) (next_timer w)
             (inflight w
              ++ [mkBatch promises (delay (self w)) (onError (self w))])
             (next_promise w)
             (trace w ++ [EvDispatch false; EvBatch promises])).
Proof.
  intros Hne Hq Hc k promises. unfold forced, bind, update.
  rewrite (dequeue_launchable (with_self (set_working false (self w)) w))
    by (first [reflexivity | assumption]).
  subst promises k. open_world w. reflexivity.
Qed.

Lemma times_forced_batches n : forall w,
  forallb launches (_queue (self w)) = true ->
  (0 < concurrency (self w))%Z ->
  n = 0 \/ (n - 1) * Z.to_nat (concurrency (self w)) + 1
           <= List.length (_queue (self w)) ->
  fst (times n forced w) = Normal tt
  /\ exists bs, forced_batches n w (snd (times n forced w)) bs.
Proof.
  induction n as [ | n IH ]; intros w Hq Hc Hlen.
  - split; [reflexivity | ]. exists []. cbn [times ret snd].
    constructor; try reflexivity.
    + rewrite app_nil_r. reflexivity.
    + constructor.
    + intros b rest H. discriminate.
  - destruct Hlen as [Hz | Hlen]; [discriminate | ].
    assert (Hne : _queue (self w) <> [])
      by (destruct (_queue (self w)); [simpl in Hlen; lia | discriminate]).
    cbn [times]. unfold bind.
    rewrite (forced_launchable w Hne Hq Hc).
    set (c := Z.to_nat (concurrency (self w))) in *.
    set (k := taken c 0 (List.length (_queue (self w)))).
    set (b1 := mkBatch (map obtained (firstn k (_queue (self w))))
                       (delay (self w)) (onError (self w))).
    set (w1 := mkWorld _ _ _ _ _ _ _).
    assert (Hk : k = Nat.min c ((List.length (_queue (self w)) + 1) / 2))
      by (subst k; rewrite taken_closed_form, Nat.sub_0_r; reflexivity).
    assert (Hkpos : 0 < k)
      by (subst k; apply taken_positive; [subst c; lia | ];
          destruct (_queue (self w)); [congruence | simpl; lia]).
    assert (Hkl : k <= List.length (_queue (self w)))
      by (subst k; apply taken_le).
    assert (Hq1 : forallb launches (_queue (self w1)) = true)
      by (subst w1; cbn; apply forallb_skipn; exact Hq).
    assert (Hlen1 : n = 0
                    \/ (n - 1) * Z.to_nat (concurrency (self w1)) + 1
                       <= List.length (_queue (self w1))).
    { destruct n as [ | n ]; [left; reflexivity | right].
      subst w1. cbn [self set_queue _queue concurrency set_working].
      fold c. rewrite length_skipn.
      assert (k <= c) by lia.
      cbn [Nat.sub] in *. rewrite Nat.sub_0_r in *. nia. }
    destruct (IH w1 Hq1 Hc Hlen1) as (Hr & bs & Hfb).
    destruct (times n forced w1) as [r w2]. cbn [fst snd] in *.
    split; [exact Hr | ]. exists (b1 :: bs).
    destruct Hfb as [Hinf Hcnt Heach Hfirst Hcons Hcalls Htm Hwq Hpr].
    constructor.
    + rewrite Hinf. subst w1. cbn [inflight]. rewrite <- app_assoc.
      reflexivity.
    + simpl. rewrite Hcnt. reflexivity.
    + constructor.
      * subst b1. cbn [b_promises b_catch b_delay].
        rewrite length_map, length_firstn.
        repeat split; try reflexivity; fold c; lia.
      * exact Heach.
    + intros b rest Heq. inversion Heq. subst b1. cbn [b_promises].
      rewrite length_map, length_firstn. fold c. lia.
    + cbn [map List.concat]. subst b1. cbn [b_promises].
      rewrite <- app_assoc, <- Hcons. subst w1.
      cbn [self set_queue _queue]. rewrite <- map_app, firstn_skipn.
      reflexivity.
    + rewrite Hcalls. subst w1. cbn [trace]. rewrite calls_app. cbn.
      rewrite app_nil_r. reflexivity.
    + rewrite Htm. reflexivity.
    + rewrite Hwq. reflexivity.
    + rewrite Hpr. reflexivity.
Qed.

(** X8: on a non-empty queue of launchable items, [drain] hands over
    [max 1 (len / concurrency)] batches in one go, without waiting for any
    of them to settle.  Each holds between one and [concurrency] items;
    taken together they are a prefix of the queue, in order, and the rest
    stays queued, so no item is lost or duplicated.  No callback is
    called and the results are untouched.  When the queue holds at least
    twice [concurrency] items, more than [concurrency] of them are in
    flight together. *)
Theorem drain_hands_over_its_batches_together w :
  _queue (self w) <> [] ->
  forallb launches (_queue (self w)) = true ->
  (0 < concurrency (self w))%Z ->
  let c := Z.to_nat (concurrency (self w)) in
  let n := List.length (_queue (self w)) / c in
  outcome_of drain w = Normal tt
  /\ exists bs,
      inflight (exec drain w) = inflight w ++ bs
      /\ List.length bs = (if Nat.eqb n 0 then 1 else n)
      /\ Forall (fun b =>
                   0 < List.length (b_promises b)
                   /\ List.length (b_promises b) <= c
                   /\ b_catch b = onError (self w)
                   /\ b_delay b = delay (self w)) bs
      /\ map obtained (_queue (self w))
         = List.concat (map b_promises bs)
           ++ map obtained (_queue (self (exec drain w)))
      /\ calls (trace (exec drain w)) = calls (trace w)
      /\ _processed (self (exec drain w)) = _processed (self w)
      /\ (2 * c <= List.length (_queue (self w)) ->
          c < List.length (List.concat (map b_promises bs))).
Proof.
  intros Hne Hq Hc c n. unfold exec, outcome_of.
  rewrite (drain_nonempty w Hne). unfold try_catch.
  assert (Hrounds : drain_rounds w = if Nat.eqb n 0 then 1 else n)
    by (rewrite (drain_rounds_positive w Hc); fold c; fold n;
        destruct n; reflexivity).
  assert (Hcpos : 0 < c) by (subst c; lia).
  assert (Hmul : c * n <= List.length (_queue (self w)))
    by (subst n; apply Nat.Div0.mul_div_le).
  assert (Hlpos : 0 < List.length (_queue (self w)))
    by (destruct (_queue (self w)); [congruence | simpl; lia]).
  assert (Hlen : drain_rounds w = 0
                 \/ (drain_rounds w - 1)
                    * Z.to_nat (concurrency (self (cancelled w))) + 1
                    <= List.length (_queue (self (cancelled w)))).
  { right. rewrite Hrounds.
    change (Z.to_nat (concurrency (self (cancelled w)))) with c.
    change (_queue (self (cancelled w))) with (_queue (self w)).
    destruct n as [ | n ]; cbn [Nat.eqb Nat.sub]; [lia | ].
    rewrite Nat.sub_0_r. nia. }
  destruct (times_forced_batches (drain_rounds w) (cancelled w) Hq Hc Hlen)
    as (Hr & bs & Hfb).
  destruct (times (drain_rounds w) forced (cancelled w)) as [r w'].
  cbn [fst snd] in *. subst r. cbn [fst snd].
  destruct Hfb as [Hinf Hcnt Heach Hfirst Hcons Hcalls Htm Hwq Hpr].
  split; [reflexivity | ]. exists bs.
  split; [exact Hinf | ].
  split; [rewrite Hcnt; exact Hrounds | ].
  split; [exact Heach | ]. split; [exact Hcons | ].
  split; [exact Hcalls | ]. split; [exact Hpr | ].
  intros Htwice.
  assert (Hn2 : 2 <= n).
  { subst n. apply Nat.div_le_lower_bound; lia. }
  rewrite Hrounds in Hcnt.
  destruct n as [ | [ | n ] ]; try lia. cbn [Nat.eqb] in Hcnt.
  destruct bs as [ | b1 [ | b2 bs ] ]; try discriminate.
  pose proof (Hfirst b1 (b2 :: bs) eq_refl) as Hb1.
  change (Z.to_nat (concurrency (self (cancelled w)))) with c in Hb1.
  change (_queue (self (cancelled w))) with (_queue (self w)) in Hb1.
  inversion Heach as [ | ? ? _ Hrest ]; subst.
  inversion Hrest as [ | ? ? (Hb2 & _) _ ]; subst.
  cbn [map List.concat]. rewrite !length_app.
  assert (Hhalf : c <= (List.length (_queue (self w)) + 1) / 2)
    by (apply Nat.div_le_lower_bound; lia).
  lia.
Qed.

Lemma drain_hands_over_its_batches_together_witness :
  _queue (self contended_queue) <> []
  /\ forallb launches (_queue (self contended_queue)) = true
  /\ (0 < concurrency (self contended_queue))%Z
  /\ 2 * Z.to_nat (concurrency (self contended_queue))
     <= List.length (_queue (self contended_queue))
  /\ exists bs,
      inflight (exec drain contended_queue) = bs
      /\ List.length bs = 2
      /\ 4 < List.length (List.concat (map b_promises bs)).
Proof.
  split; [vm_compute; discriminate | ].
  split; [vm_compute; reflexivity | ].
  split; [vm_compute; reflexivity | ].
  split; [vm_compute; lia | ].
  destruct (drain_hands_over_its_batches_together contended_queue
              ltac:(vm_compute; discriminate) eq_refl eq_refl)
    as (_ & bs & Hinf & Hcnt & _ & _ & _ & _ & Hover).
  exists bs. split; [exact Hinf | ]. split; [exact Hcnt | ].
  apply Hover. vm_compute. lia.
Defined.

(** *** A failing item on the graceful path *)

Lemma rejects_launches item e : rejects item = Some e -> launches item = true.
Proof.
  destruct item as [ | | | | | | | [x | e'] | [x | e'] | ]; simpl;
    intros H; try discriminate; reflexivity.
Qed.

Lemma rejects_awaited item e :
  rejects item = Some e -> awaited (obtained item) = Rejects e.
Proof.
  destruct item as [ | | | | | | | [x | e'] | [x | e'] | ]; simpl;
    intros H; try discriminate.
  - congruence.
  - destruct (awaited x); congruence.
Qed.

Lemma bluebird_all_first_rejection good : forall values bad e tl,
  map produces good = map Some values ->
  rejects bad = Some e ->
  bluebird_all (map obtained (good ++ bad :: tl)) = inr e.
Proof.
  induction good as [ | g good IH ]; intros values bad e tl Hvals Hbad; simpl.
  - rewrite (rejects_awaited bad e Hbad). reflexivity.
  - destruct values as [ | v values ]; simpl in Hvals; [discriminate | ].
    inversion Hvals as [[Hg Hrest]].
    rewrite (produces_awaited g v Hg), (IH values bad e tl Hrest Hbad).
    reflexivity.
Qed.

Lemma firstn_plus {A} (l : list A) : forall k n,
  firstn (k + n) l = firstn k l ++ firstn n (skipn k l).
Proof.
  induction l as [ | x l IH ]; intros [ | k ] n; simpl;
    try rewrite firstn_nil; try reflexivity.
  rewrite IH. reflexivity.
Qed.

Lemma failing_queue_launches good values bad e rest :
  map produces good = map Some values ->
  rejects bad = Some e ->
  forallb launches rest = true ->
  forallb launches (good ++ bad :: rest) = true.
Proof.
  intros Hvals Hbad Hrest. rewrite forallb_app. cbn [forallb].
  rewrite (produces_all_launch good values Hvals),
    (rejects_launches bad e Hbad), Hrest. reflexivity.
Qed.

Lemma never_rejects_fulfils item :
  launches item = true -> never_rejects item = true ->
  rejecting (obtained item) = false.
Proof.
  unfold never_rejects, rejecting.
  destruct item as [ | | | | | | | [x | e'] | [x | e'] | ]; simpl;
    intros Hl Hr; try discriminate; try reflexivity.
  destruct (awaited x); [reflexivity | discriminate].
Qed.

(** Of the promises a queue of good items, one item that rejects and items
    that do not reject can hand over, one rejects. *)
Lemma single_rejection good values bad e rest :
  map produces good = map Some values ->
  rejects bad = Some e ->
  forallb launches rest = true ->
  forallb never_rejects rest = true ->
  filter rejecting (map obtained (good ++ bad :: rest)) = [obtained bad].
Proof.
  intros Hvals Hbad Hlaunch Hnever.
  rewrite map_app, filter_app. cbn [map filter].
  assert (Hgood : filter rejecting (map obtained good) = []).
  { clear Hlaunch Hnever. revert values Hvals.
    induction good as [ | g good IH ]; intros values Hvals; [reflexivity | ].
    destruct values as [ | v values ]; simpl in Hvals; [discriminate | ].
    inversion Hvals as [[Hg Hrest]]. cbn [map filter].
    unfold rejecting at 1. rewrite (produces_awaited g v Hg).
    apply (IH values Hrest). }
  assert (Hothers : filter rejecting (map obtained rest) = []).
  { clear Hgood. induction rest as [ | r rest IH ]; [reflexivity | ].
    cbn [forallb] in Hlaunch, Hnever.
    apply andb_true_iff in Hlaunch. destruct Hlaunch as [Hl Hls].
    apply andb_true_iff in Hnever. destruct Hnever as [Hn Hns].
    cbn [map filter]. rewrite (never_rejects_fulfils r Hl Hn).
    apply IH; assumption. }
  rewrite Hgood, Hothers. unfold rejecting.
  rewrite (rejects_awaited bad e Hbad). reflexivity.
Qed.

Lemma taken_within n : forall i len, taken n i len <= n.
Proof. intros i len. rewrite taken_closed_form. apply Nat.le_min_l. Qed.

(** The batch that holds the item at index [g] starts at or before it, ends
    behind it and within the queue, and is no longer than the
    concurrency. *)
Lemma batch_bounds_spec fuel : forall c g len,
  0 < c -> g < len -> g < fuel ->
  fst (batch_bounds fuel c g len) <= g
  /\ g < snd (batch_bounds fuel c g len)
  /\ snd (batch_bounds fuel c g len) <= len
  /\ snd (batch_bounds fuel c g len) - fst (batch_bounds fuel c g len) <= c.
Proof.
  induction fuel as [ | fuel IH ]; intros c g len Hc Hg Hfuel; [lia | ].
  cbn [batch_bounds].
  pose proof (taken_positive c len Hc ltac:(lia)) as Hpos.
  pose proof (taken_le c 0 len) as Hle.
  pose proof (taken_within c 0 len) as Hwithin.
  destruct (Nat.ltb g (taken c 0 len)) eqn:Hcmp.
  - apply Nat.ltb_lt in Hcmp. cbn [fst snd]. lia.
  - apply Nat.ltb_ge in Hcmp.
    specialize (IH c (g - taken c 0 len) (len - taken c 0 len) Hc
                   ltac:(lia) ltac:(lia)).
    destruct (batch_bounds fuel c (g - taken c 0 len) (len - taken c 0 len))
      as [d t].
    cbn [fst snd] in *. lia.
Qed.

(** One round of the graceful path on a queue whose first failing item is
    [bad]: the batch either holds [bad], and then the run ends in failure
    when it settles, or holds good items only, and then the next
    [_dequeue] finds a ready queue with those items gone. *)
Lemma rejecting_step w good values bad e rest :
  graceful w ->
  raises (onError (self w)) = None ->
  _queue (self w) = good ++ bad :: rest ->
  map produces good = map Some values ->
  rejects bad = Some e ->
  forallb launches rest = true ->
  let k := taken (Z.to_nat (concurrency (self w))) 0
                 (List.length (_queue (self w))) in
  exists b,
    0 < k
    /\ ticks (exec _dequeue w) = 0
    /\ timers (exec _dequeue w) = []
    /\ inflight (exec _dequeue w) = [b]
    /\ (List.length good < k ->
        failed w e values 0 k
          (run_turn (settle b) (with_inflight [] (exec _dequeue w))))
    /\ (k <= List.length good ->
        exists w2,
          run_turn (settle b) (with_inflight [] (exec _dequeue w))
          = exec _dequeue w2
          /\ graceful w2
          /\ raises (onError (self w2)) = None
          /\ _queue (self w2) = skipn k (_queue (self w))
          /\ calls (trace w2) = calls (trace w)
          /\ batches_of (trace w2)
             = batches_of (trace w)
               ++ [map obtained (firstn k (_queue (self w)))]
          /\ onError (self w2) = onError (self w)
          /\ concurrency (self w2) = concurrency (self w)
          /\ _processed (self w2) = _processed (self w) ++ firstn k values).
Proof.
  intros Hg Herr Hq Hvals Hbad Hrest k.
  destruct Hg as [Hidle Hwait Hticks Hinf Htimers Hc Hret].
  pose proof (failing_queue_launches good values bad e rest Hvals Hbad Hrest)
    as Hlaunch.
  rewrite <- Hq in Hlaunch.
  assert (Hne : _queue (self w) <> [])
    by (rewrite Hq; destruct good; discriminate).
  unfold exec.
  rewrite (dequeue_launchable w Hidle Hne Hlaunch Hc).
  fold k.
  assert (Hk : 0 < k).
  { apply taken_positive; [lia | ].
    destruct (_queue (self w)); [congruence | simpl; lia]. }
  cbn [snd ticks timers inflight]. rewrite Hinf. cbn [app].
  eexists.
  split; [exact Hk | ]. split; [exact Hticks | ]. split; [exact Htimers | ].
  split; [reflexivity | ].
  unfold run_turn, settle. cbn [b_promises b_catch].
  split.
  - (* the batch holds the failing item *)
    intros Hlt.
    remember (k - List.length good - 1) as d eqn:Hd.
    assert (Hkd : k - List.length good = S d) by lia.
    assert (Hfirst : firstn k (_queue (self w))
                     = good ++ bad :: firstn d rest).
    { rewrite Hq, firstn_app, firstn_all2 by lia.
      rewrite Hkd. reflexivity. }
    assert (Hall : bluebird_all (map obtained (firstn k (_queue (self w))))
                   = inr e)
      by (rewrite Hfirst;
          apply (bluebird_all_first_rejection good values bad e _ Hvals
                   Hbad)).
    rewrite Hall.
    rewrite (invoke_returns _ _ _ Herr).
    unfold failed, quiescent, next_turn. unfold_setters. cbn.
    rewrite Hticks, Htimers.
    rewrite !calls_app, !batches_of_app. cbn. rewrite !app_nil_r.
    rewrite concat_app. cbn. rewrite !app_nil_r.
    repeat split; reflexivity.
  - (* the batch holds good items only *)
    intros Hle.
    assert (Hfirst : firstn k (_queue (self w)) = firstn k good).
    { rewrite Hq, firstn_app.
      replace (k - List.length good) with 0 by lia.
      cbn [firstn]. apply app_nil_r. }
    assert (Hskip : skipn k (_queue (self w))
                    = skipn k good ++ bad :: rest).
    { rewrite Hq, skipn_app.
      replace (k - List.length good) with 0 by lia. reflexivity. }
    assert (Hall : bluebird_all (map obtained (firstn k (_queue (self w))))
                   = inl (firstn k values))
      by (rewrite Hfirst;
          apply (produces_all_fulfil _ _ (produces_firstn k _ _ Hvals))).
    rewrite Hall.
    unfold try_catch.
    match goal with
    | |- context [on_spread _ ?w0] => set (w1 := w0)
    end.
    assert (Hq1 : _queue (self w1) = skipn k (_queue (self w)))
      by reflexivity.
    rewrite (on_spread_redispatches (firstn k values) w1)
      by (first [rewrite Hq1, Hskip; destruct (skipn k good); discriminate
                | exact Hwait]).
    set (w2 := appended (firstn k values) w1).
    assert (Hq2 : _queue (self w2) = skipn k (_queue (self w)))
      by exact Hq1.
    assert (Hg2 : graceful w2)
      by (subst w2 w1; constructor; cbn; assumption || reflexivity).
    assert (Hl2 : forallb launches (_queue (self w2)) = true).
    { rewrite Hq2, Hskip.
      apply (failing_queue_launches (skipn k good) (skipn k values) bad e);
        try assumption.
      apply produces_skipn. exact Hvals. }
    assert (Hne2 : _queue (self w2) <> [])
      by (rewrite Hq2, Hskip; destruct (skipn k good); discriminate).
    exists w2.
    rewrite (dequeue_launchable w2 (g_idle _ Hg2) Hne2 Hl2
               (g_concurrency _ Hg2)).
    split; [reflexivity | ]. split; [exact Hg2 | ].
    split; [exact Herr | ]. split; [exact Hq2 | ].
    subst w2 w1. unfold appended. unfold_setters. cbn.
    rewrite !calls_app, !batches_of_app. cbn. rewrite !app_nil_r.
    repeat split.
Qed.

Lemma failed_after_round w w2 e values k d t w' :
  calls (trace w2) = calls (trace w) ->
  batches_of (trace w2)
  = batches_of (trace w) ++ [map obtained (firstn k (_queue (self w)))] ->
  onError (self w2) = onError (self w) ->
  _processed (self w2) = _processed (self w) ++ firstn k values ->
  _queue (self w2) = skipn k (_queue (self w)) ->
  failed w2 e (skipn k values) d t w' ->
  failed w e values (k + d) (k + t) w'.
Proof.
  unfold failed.
  intros Hcalls Hbatches Hcb Hproc Hq (H1 & H2 & H3 & H4 & H5 & H6).
  rewrite H1, Hcalls, Hcb.
  split; [reflexivity | ]. split; [exact H2 | ]. split; [exact H3 | ].
  split; [ | split ].
  - rewrite H4, Hproc, <- app_assoc, firstn_plus. reflexivity.
  - rewrite H5, Hq, skipn_skipn, (Nat.add_comm t k). reflexivity.
  - rewrite H6, Hbatches, Hq, concat_app. cbn [List.concat].
    rewrite app_nil_r, <- app_assoc, <- map_app, <- firstn_plus.
    reflexivity.
Qed.

Lemma skipped_good {A} k (good : list A) bad rest :
  k <= List.length good ->
  skipn k (good ++ bad :: rest) = skipn k good ++ bad :: rest.
Proof.
  intros Hle. rewrite skipn_app.
  replace (k - List.length good) with 0 by lia. reflexivity.
Qed.

(** With the turns taken in the order of [next_turn], the run comes to rest
    in failure within one turn per good item and one more. *)
Lemma rejecting_loop m : forall w good values bad e rest bound,
  graceful w ->
  raises (onError (self w)) = None ->
  _queue (self w) = good ++ bad :: rest ->
  map produces good = map Some values ->
  rejects bad = Some e ->
  forallb launches rest = true ->
  List.length good <= m ->
  List.length good < bound ->
  forall fuel, m < fuel ->
  failed w e values
    (fst (batch_bounds bound (Z.to_nat (concurrency (self w)))
            (List.length good) (List.length (_queue (self w)))))
    (snd (batch_bounds bound (Z.to_nat (concurrency (self w)))
            (List.length good) (List.length (_queue (self w)))))
    (run fuel (exec _dequeue w)).
Proof.
  induction m as [ | m IH ];
    intros w good values bad e rest bound Hg Herr Hq Hvals Hbad Hrest Hlen
           Hbound fuel Hfuel;
    (destruct fuel as [ | fuel ]; [lia | ]);
    (destruct bound as [ | bound ]; [lia | ]);
    destruct (rejecting_step w good values bad e rest Hg Herr Hq Hvals
                Hbad Hrest)
      as (b & Hk & Hticks & Htimers & Hinf & Hfail & Hmore);
    rewrite (run_settles_only_batch fuel _ b Hticks Hinf);
    cbn [batch_bounds];
    destruct (Nat.ltb (List.length good)
                (taken (Z.to_nat (concurrency (self w))) 0
                       (List.length (_queue (self w))))) eqn:Hcmp.
  - apply Nat.ltb_lt in Hcmp. specialize (Hfail Hcmp).
    rewrite run_quiescent; [exact Hfail | ].
    destruct Hfail as (_ & Hquiet & _). exact Hquiet.
  - apply Nat.ltb_ge in Hcmp. lia.
  - apply Nat.ltb_lt in Hcmp. specialize (Hfail Hcmp).
    rewrite run_quiescent; [exact Hfail | ].
    destruct Hfail as (_ & Hquiet & _). exact Hquiet.
  - apply Nat.ltb_ge in Hcmp.
    destruct (Hmore Hcmp)
      as (w2 & Hw2 & Hg2 & Herr2 & Hq2 & Hcalls & Hbatches & Hcb & Hcc
          & Hproc).
    rewrite Hw2.
    set (k := taken (Z.to_nat (concurrency (self w))) 0
                    (List.length (_queue (self w)))) in *.
    assert (Hq2' : _queue (self w2) = skipn k good ++ bad :: rest)
      by (rewrite Hq2, Hq; apply skipped_good; exact Hcmp).
    assert (Hlen2 : List.length (skipn k good) <= m)
      by (rewrite length_skipn; lia).
    assert (Hbound2 : List.length (skipn k good) < bound)
      by (rewrite length_skipn; lia).
    pose proof (IH w2 (skipn k good) (skipn k values) bad e rest bound
                  Hg2 Herr2 Hq2' (produces_skipn k _ _ Hvals) Hbad Hrest
                  Hlen2 Hbound2 fuel ltac:(lia)) as Hend.
    rewrite Hcc, Hq2, !length_skipn in Hend.
    destruct (batch_bounds bound _ _ _) as [d t]. cbn [fst snd] in *.
    apply (failed_after_round w w2 e values _ d t); assumption.
Qed.

(** Whatever turns the host takes, a run that has come to rest has ended
    in that failure. *)
Lemma rejecting_any_schedule m : forall w good values bad e rest bound,
  graceful w ->
  raises (onError (self w)) = None ->
  _queue (self w) = good ++ bad :: rest ->
  map produces good = map Some values ->
  rejects bad = Some e ->
  forallb launches rest = true ->
  List.length good <= m ->
  List.length good < bound ->
  forall schedule w',
    run_turns schedule (exec _dequeue w) = Some w' ->
    quiescent w' = true ->
    failed w e values
      (fst (batch_bounds bound (Z.to_nat (concurrency (self w)))
              (List.length good) (List.length (_queue (self w)))))
      (snd (batch_bounds bound (Z.to_nat (concurrency (self w)))
              (List.length good) (List.length (_queue (self w)))))
      w'.
Proof.
  induction m as [ | m IH ];
    intros w good values bad e rest bound Hg Herr Hq Hvals Hbad Hrest Hlen
           Hbound schedule w' Hrun Hquiet;
    (destruct bound as [ | bound ]; [lia | ]);
    destruct (rejecting_step w good values bad e rest Hg Herr Hq Hvals
                Hbad Hrest)
      as (b & Hk & Hticks & Htimers & Hinf & Hfail & Hmore);
    (destruct schedule as [ | t0 schedule ]; simpl in Hrun;
     [ inversion Hrun; subst w';
       unfold quiescent, next_turn in Hquiet;
       rewrite Hticks, Hinf in Hquiet; discriminate | ]);
    (destruct (fire t0 (exec _dequeue w)) as [w1 | ] eqn:Hfire;
     [ | discriminate ]);
    apply (fire_only_batch t0 _ b w1 Hticks Htimers Hinf) in Hfire;
    subst w1;
    cbn [batch_bounds];
    destruct (Nat.ltb (List.length good)
                (taken (Z.to_nat (concurrency (self w))) 0
                       (List.length (_queue (self w))))) eqn:Hcmp.
  - apply Nat.ltb_lt in Hcmp. specialize (Hfail Hcmp).
    destruct schedule as [ | t' schedule ]; simpl in Hrun.
    + inversion Hrun. subst w'. exact Hfail.
    + destruct Hfail as (_ & Hq' & _).
      rewrite (fire_quiescent t' _ Hq') in Hrun. discriminate.
  - apply Nat.ltb_ge in Hcmp. lia.
  - apply Nat.ltb_lt in Hcmp. specialize (Hfail Hcmp).
    destruct schedule as [ | t' schedule ]; simpl in Hrun.
    + inversion Hrun. subst w'. exact Hfail.
    + destruct Hfail as (_ & Hq' & _).
      rewrite (fire_quiescent t' _ Hq') in Hrun. discriminate.
  - apply Nat.ltb_ge in Hcmp.
    destruct (Hmore Hcmp)
      as (w2 & Hw2 & Hg2 & Herr2 & Hq2 & Hcalls & Hbatches & Hcb & Hcc
          & Hproc).
    rewrite Hw2 in Hrun.
    set (k := taken (Z.to_nat (concurrency (self w))) 0
                    (List.length (_queue (self w)))) in *.
    assert (Hq2' : _queue (self w2) = skipn k good ++ bad :: rest)
      by (rewrite Hq2, Hq; apply skipped_good; exact Hcmp).
    assert (Hlen2 : List.length (skipn k good) <= m)
      by (rewrite length_skipn; lia).
    assert (Hbound2 : List.length (skipn k good) < bound)
      by (rewrite length_skipn; lia).
    pose proof (IH w2 (skipn k good) (skipn k values) bad e rest bound
                  Hg2 Herr2 Hq2' (produces_skipn k _ _ Hvals) Hbad Hrest
                  Hlen2 Hbound2 schedule w' Hrun Hquiet) as Hend.
    rewrite Hcc, Hq2, !length_skipn in Hend.
    destruct (batch_bounds bound _ _ _) as [d t]. cbn [fst snd] in *.
    apply (failed_after_round w w2 e values _ d t); assumption.
Qed.

Lemma rejected_by_only_call tr : forall q e,
  calls tr = [(CbReject q, e)] -> state_of q tr = Rejected e.
Proof.
  induction tr as [ | ev tr IHtr ]; intros q e H; [discriminate | ].
  destruct ev as [ b | ps | cb arg | ex ]; cbn in H |- *; auto.
  inversion H. subst. rewrite Nat.eqb_refl. reflexivity.
Qed.

Lemma failed_ends_rejected w p e values d t w' :
  calls (trace w) = [] ->
  batches_of (trace w) = [] ->
  _processed (self w) = [] ->
  onError (self w) = CbReject p ->
  failed w e values d t w' ->
  ended_rejected p e values (_queue (self w)) d t w'.
Proof.
  intros Hcalls Hbatches Hproc Hcb (H1 & _ & H3 & H4 & H5 & H6).
  rewrite Hcalls, Hcb in H1. rewrite Hproc in H4. rewrite Hbatches in H6.
  unfold ended_rejected.
  split; [apply rejected_by_only_call; exact H1 | ].
  split; [exact H1 | ]. split; [exact H3 | ].
  split; [exact H4 | ]. split; [exact H5 | exact H6].
Qed.

(** X9: on the graceful path a failure is reported once and ends the run.
    Take a queue in which one item's asynchronous value rejects with [e],
    the items before it succeed, and the items after it can be launched
    and do not reject; so whatever batch the failing item goes in holds a
    single rejection, and the order in which promises settle plays no
    part.  Then the promise returned by [start] is rejected with [e]; the
    reject is the only callback called, so no completion is ever reported;
    the flag stays set.  The results are exactly the values of the [d]
    items dispatched in the batches before the failing one, the first [t]
    items have been handed over and the others are still queued, where
    [(d, t)] are the bounds of the batch that holds the failing item.  The
    host gets there within one turn per good item and two more, and can
    come to rest nowhere else. *)
Theorem rejecting_item_rejects_the_start_promise o good bad rest values e :
  map produces good = map Some values ->
  rejects bad = Some e ->
  forallb launches rest = true ->
  forallb never_rejects rest = true ->
  (0 < concurrency (BlueBirdQueue o))%Z ->
  let items := good ++ bad :: rest in
  let w0 := exec (add (VArray items)) (fresh o) in
  let p := next_promise w0 in
  let c := Z.to_nat (concurrency (BlueBirdQueue o)) in
  let bounds :=
    batch_bounds (S (List.length good)) c (List.length good)
                 (List.length items) in
  let d := fst bounds in
  let t := snd bounds in
  filter rejecting (map obtained items) = [obtained bad]
  /\ (d <= List.length good /\ List.length good < t
      /\ t <= List.length items /\ t - d <= c)
  /\ (forall fuel,
      List.length good + 1 < fuel ->
      quiescent (run fuel (exec start w0)) = true
      /\ ended_rejected p e values items d t (run fuel (exec start w0)))
  /\ (forall schedule w',
      run_turns schedule (exec start w0) = Some w' ->
      quiescent w' = true ->
      ended_rejected p e values items d t w').
Proof.
  intros Hvals Hbad Hrest Hnever Hc items w0 p c bounds d t.
  split; [exact (single_rejection good values bad e rest Hvals Hbad Hrest
                   Hnever) | ].
  split.
  { apply (batch_bounds_spec (S (List.length good)) c (List.length good)
             (List.length items)).
    - subst c. lia.
    - subst items. rewrite length_app. cbn [List.length]. lia.
    - lia. }
  subst p.
  set (w1 := exec start w0).
  set (w2 := with_ticks 0 w1).
  assert (Hq2 : _queue (self w2) = good ++ bad :: rest) by reflexivity.
  assert (Hg2 : graceful w2)
    by (constructor; try reflexivity; exact Hc).
  assert (Herr2 : raises (onError (self w2)) = None) by reflexivity.
  assert (Hl2 : forallb launches (_queue (self w2)) = true)
    by (rewrite Hq2;
        apply (failing_queue_launches good values bad e rest); assumption).
  assert (Hne2 : _queue (self w2) <> [])
    by (rewrite Hq2; destruct good; discriminate).
  assert (Htick : run_turn _dequeue w2 = exec _dequeue w2).
  { unfold run_turn, exec.
    rewrite (dequeue_launchable w2 (g_idle _ Hg2) Hne2 Hl2
               (g_concurrency _ Hg2)).
    reflexivity. }
  split.
  - intros fuel Hfuel.
    destruct fuel as [ | fuel ]; [lia | ].
    rewrite (run_tick_first fuel w1 0) by reflexivity.
    fold w2. rewrite Htick.
    pose proof (rejecting_loop (List.length good) w2 good values bad e rest
                  (S (List.length good))
                  Hg2 Herr2 Hq2 Hvals Hbad Hrest (Nat.le_refl _)
                  (Nat.lt_succ_diag_r _) fuel ltac:(lia)) as Hend.
    split; [exact (proj1 (proj2 Hend)) | ].
    exact (failed_ends_rejected w2 (next_promise w0) e values _ _ _
             eq_refl eq_refl eq_refl eq_refl Hend).
  - intros schedule w' Hrun Hquiet.
    destruct schedule as [ | t0 schedule ]; simpl in Hrun.
    + inversion Hrun. subst w'. discriminate.
    + destruct t0 as [ | h | k ]; simpl in Hrun;
        [ | discriminate | destruct k; discriminate ].
      fold w2 in Hrun. rewrite Htick in Hrun.
      pose proof (rejecting_any_schedule (List.length good) w2 good values
                    bad e rest (S (List.length good))
                    Hg2 Herr2 Hq2 Hvals Hbad Hrest (Nat.le_refl _)
                    (Nat.lt_succ_diag_r _) schedule w' Hrun Hquiet) as Hend.
      exact (failed_ends_rejected w2 (next_promise w0) e values _ _ _
               eq_refl eq_refl eq_refl eq_refl Hend).
Qed.

Lemma rejecting_item_rejects_the_start_promise_witness :
  map produces [factory (VStr "hello")] = map Some [VStr "hello"]
  /\ rejects (VThenable (Rejects this_failed)) = Some this_failed
  /\ forallb launches [factory (VNum 3); factory (VNum 4)] = true
  /\ forallb never_rejects [factory (VNum 3); factory (VNum 4)] = true
  /\ (0 < concurrency (BlueBirdQueue None))%Z
  /\ batch_bounds 2 4 1 4 = (0, 2)
  /\ ended_rejected 0 this_failed [VStr "hello"]
       [factory (VStr "hello"); VThenable (Rejects this_failed);
        factory (VNum 3); factory (VNum 4)]
       0 2
       (run 3
          (exec start
             (exec (add (VArray ([factory (VStr "hello")]
                                 ++ VThenable (Rejects this_failed)
                                    :: [factory (VNum 3);
                                        factory (VNum 4)])))
                   (fresh None)))).
Proof.
  do 6 (split; [reflexivity | ]).
  pose proof (rejecting_item_rejects_the_start_promise None
                [factory (VStr "hello")]
                (VThenable (Rejects this_failed))
                [factory (VNum 3); factory (VNum 4)]
                [VStr "hello"] this_failed
                eq_refl eq_refl eq_refl eq_refl eq_refl)
    as (_ & _ & Hfuel & _).
  exact (proj2 (Hfuel 3 ltac:(simpl; lia))).
Defined.

(** *** [drain] as a way out *)




(** *** Retrying on a queue that stays busy *)

Lemma polling_not_quiescent w : polling w -> quiescent w = false.
Proof.
  intros (_ & Hinf & Hpending). unfold quiescent, next_turn.
  rewrite Hinf. destruct (ticks w) as [ | n ]; [ | reflexivity ].
  destruct Hpending as [Hticks | Htimers]; [lia | ].
  destruct (timers w) as [ | [h ms] ts ]; [congruence | reflexivity].
Qed.

Lemma fire_polling t w w' :
  polling w -> fire t w = Some w' ->
  polling w'
  /\ _queue (self w') = _queue (self w)
  /\ _processed (self w') = _processed (self w)
  /\ calls (trace w') = calls (trace w)
  /\ List.length (_queueWaiting (self w'))
     = S (List.length (_queueWaiting (self w))).
Proof.
  intros (Hflag & Hinf & Hpending) Hfire.
  destruct t as [ | h | k ]; unfold fire in Hfire.
  - destruct (ticks w) as [ | n ] eqn:Hticks; [discriminate | ].
    inversion Hfire. subst w'. unfold run_turn.
    rewrite (dequeue_busy (with_ticks n w) Hflag).
    unfold polling. cbn. rewrite calls_app, length_app. cbn.
    rewrite app_nil_r, Nat.add_1_r.
    repeat split; try assumption.
    right. destruct (timers w); discriminate.
  - destruct (has_timer h w); [ | discriminate].
    inversion Hfire. subst w'. unfold run_turn.
    assert (Hm : (clearTimeout h ;; _dequeue) w
                 = _dequeue
                     (with_timers
                        (filter (fun t => negb (Nat.eqb (fst t) h))
                                (timers w)) w))
      by reflexivity.
    rewrite Hm, dequeue_busy by exact Hflag.
    unfold polling. cbn. rewrite calls_app, length_app. cbn.
    rewrite app_nil_r, Nat.add_1_r.
    repeat split; try assumption.
    right. destruct (filter _ (timers w)); discriminate.
  - rewrite Hinf in Hfire. destruct k; discriminate.
Qed.

(** X11: a queue whose flag is set while no batch is in flight (the state a
    rejected batch leaves behind) never dispatches again on its own.  Each
    pending dispatch attempt, from [start] or from a retry timer, only
    starts another timer and records one more handle: whatever turns the
    host takes, the host is never at rest, the flag stays set, and the
    queue, the results and the callbacks called stay as they were. *)
Theorem busy_queue_without_batch_polls_for_ever w schedule w' :
  _working (self w) = true ->
  inflight w = [] ->
  0 < ticks w \/ timers w <> [] ->
  run_turns schedule w = Some w' ->
  quiescent w' = false
  /\ _working (self w') = true
  /\ _queue (self w') = _queue (self w)
  /\ _processed (self w') = _processed (self w)
  /\ calls (trace w') = calls (trace w)
  /\ List.length (_queueWaiting (self w'))
     = List.length (_queueWaiting (self w)) + List.length schedule.
Proof.
  intros Hflag Hinf Hpending.
  assert (Hp : polling w) by (split; [ | split ]; assumption).
  clear Hflag Hinf Hpending. revert w Hp.
  induction schedule as [ | t schedule IH ]; intros w Hp Hrun;
    simpl in Hrun.
  - inversion Hrun. subst w'. cbn [List.length]. rewrite Nat.add_0_r.
    split; [apply polling_not_quiescent; exact Hp | ].
    destruct Hp as (Hflag & _). repeat split. exact Hflag.
  - destruct (fire t w) as [w1 | ] eqn:Hfire; [ | discriminate].
    destruct (fire_polling t w w1 Hp Hfire)
      as (Hp1 & Hq1 & Hpr1 & Hc1 & Hl1).
    destruct (IH w1 Hp1 Hrun) as (H1 & H2 & H3 & H4 & H5 & H6).
    rewrite H3, H4, H5, H6, Hq1, Hpr1, Hc1, Hl1. cbn [List.length].
    repeat split; try assumption. lia.
Qed.

Lemma busy_queue_without_batch_polls_for_ever_witness :
  _working (self restarted_after_rejection) = true
  /\ inflight restarted_after_rejection = []
  /\ 0 < ticks restarted_after_rejection
  /\ run_turns [Tick; Timeout 0; Timeout 1] restarted_after_rejection
     <> None
  /\ forall w',
      run_turns [Tick; Timeout 0; Timeout 1] restarted_after_rejection
      = Some w' ->
      quiescent w' = false /\ _working (self w') = true.
Proof.
  split; [vm_compute; reflexivity | ].
  split; [vm_compute; reflexivity | ].
  split; [vm_compute; lia | ].
  split; [vm_compute; discriminate | ].
  intros w' Hrun.
  destruct (busy_queue_without_batch_polls_for_ever
              restarted_after_rejection [Tick; Timeout 0; Timeout 1] w'
              eq_refl eq_refl ltac:(left; vm_compute; lia) Hrun)
    as (Hq & Hflag & _).
  split; [exact Hq | exact Hflag].
Defined.

(** *** Adding to a queue that is running *)




(** *** What is never written *)

Lemma dequeue_keeps w :
  settings (self (snd (_dequeue w))) = settings (self w)
  /\ _processed (self (snd (_dequeue w))) = _processed (self w).
Proof.
  destruct (_working (self w)) eqn:Hflag.
  - rewrite (dequeue_busy w Hflag). split; reflexivity.
  - destruct (dequeue_idle_cases w Hflag)
      as (k & _ & _ & [(_ & Hd) | [(_ & Hd) | (j & ex & _ & _ & Hd)]]);
      rewrite Hd; rewrite ?invoke_logs; split; reflexivity.
Qed.

Lemma settle_keeps b w :
  settings (self (snd (settle b w))) = settings (self w)
  /\ exists l, _processed (self (snd (settle b w))) = _processed (self w) ++ l.
Proof.
  unfold settle.
  destruct (bluebird_all (b_promises b)) as [values | reason] eqn:Hall.
  - split.
    + unfold try_catch.
      destruct (_queueWaiting (self w)) as [ | h hs ] eqn:Hwait.
      * destruct (_queue (self w)) as [ | x rest ] eqn:Hq.
        -- destruct (raises (onComplete (self w))) as [ex | ] eqn:Hraises.
           ++ rewrite (on_spread_completion_throws values w ex Hq Hwait
                         Hraises).
              rewrite invoke_logs. reflexivity.
           ++ rewrite (on_spread_completes values w Hq Hwait Hraises).
              reflexivity.
        -- rewrite (on_spread_redispatches values w)
             by (rewrite ?Hq; first [discriminate | assumption]).
           destruct (dequeue_keeps (appended values w)) as [Hs _].
           destruct (_dequeue (appended values w)) as [[[] | ex] w'];
             cbn [snd] in Hs |- *; rewrite ?invoke_logs; exact Hs.
      * rewrite (on_spread_waits values w)
          by (rewrite Hwait; discriminate).
        reflexivity.
    + exists values.
      pose proof (settle_appends b values w Hall) as Happ.
      unfold exec, settle in Happ. rewrite Hall in Happ. exact Happ.
  - rewrite invoke_logs. split; [reflexivity | ].
    exists []. rewrite app_nil_r. reflexivity.
Qed.

Lemma run_turn_keeps (m : M unit) w :
  self (run_turn m w) = self (snd (m w)).
Proof.
  unfold run_turn. destruct (m w) as [[[] | e] w']; reflexivity.
Qed.

Lemma fire_keeps t w w' :
  fire t w = Some w' ->
  settings (self w') = settings (self w)
  /\ exists l, _processed (self w') = _processed (self w) ++ l.
Proof.
  intros Hfire. destruct t as [ | h | k ]; unfold fire in Hfire.
  - destruct (ticks w) as [ | n ]; [discriminate | ].
    inversion Hfire. rewrite run_turn_keeps.
    destruct (dequeue_keeps (with_ticks n w)) as [Hs Hp].
    split; [exact Hs | ]. exists []. rewrite app_nil_r. exact Hp.
  - destruct (has_timer h w); [ | discriminate].
    inversion Hfire. rewrite run_turn_keeps.
    destruct (dequeue_keeps
                (with_timers
                   (filter (fun t => negb (Nat.eqb (fst t) h)) (timers w))
                   w)) as [Hs Hp].
    split; [exact Hs | ]. exists []. rewrite app_nil_r. exact Hp.
  - destruct (nth_error (inflight w) k) as [b | ]; [ | discriminate].
    inversion Hfire. rewrite run_turn_keeps.
    apply (settle_keeps b (with_inflight (remove_nth k (inflight w)) w)).
Qed.

Lemma times_forced_keeps n : forall w,
  settings (self (snd (times n forced w))) = settings (self w)
  /\ _processed (self (snd (times n forced w))) = _processed (self w).
Proof.
  induction n as [ | n IH ]; intros w; [split; reflexivity | ].
  cbn [times]. unfold bind.
  assert (Hf : settings (self (snd (forced w))) = settings (self w)
               /\ _processed (self (snd (forced w))) = _processed (self w))
    by (unfold forced, bind, update;
        apply (dequeue_keeps (with_self (set_working false (self w)) w))).
  destruct (forced w) as [[[] | e] w1]; cbn [snd] in Hf |- *.
  - destruct (IH w1) as [Hs Hp]. destruct Hf as [Hs1 Hp1].
    split; congruence.
  - exact Hf.
Qed.

Lemma drain_keeps w :
  settings (self (exec drain w)) = settings (self w)
  /\ _processed (self (exec drain w)) = _processed (self w).
Proof.
  unfold exec.
  destruct (_queue (self w)) as [ | x rest ] eqn:Hq.
  - unfold drain, bind, this. rewrite Hq. split; reflexivity.
  - rewrite drain_nonempty by (rewrite Hq; discriminate).
    unfold try_catch.
    pose proof (times_forced_keeps (drain_rounds w) (cancelled w)) as Hk.
    destruct (times (drain_rounds w) forced (cancelled w)) as [[[] | e] w'];
      cbn [snd] in Hk |- *; [exact Hk | ].
    unfold bind, this. rewrite invoke_logs. exact Hk.
Qed.

(** X13: the results are only ever appended to, and the settings are only
    ever written by construction and by [start].  No host turn and none
    of [add], [addNow], [drain] and [start] removes, reorders or resets a
    result, and none but [start] (which replaces the two callbacks)
    changes [concurrency], [delay], [interval], [onComplete] or [onError];
    so a queue that is used again reports the results of its earlier runs
    in front of the new ones. *)
Theorem results_are_append_only_and_settings_fixed :
  (forall schedule w w',
      run_turns schedule w = Some w' ->
      settings (self w') = settings (self w)
      /\ exists l, _processed (self w') = _processed (self w) ++ l)
  /\ (forall v w,
      settings (self (exec (add v) w)) = settings (self w)
      /\ _processed (self (exec (add v) w)) = _processed (self w))
  /\ (forall v w,
      settings (self (exec (addNow v) w)) = settings (self w)
      /\ _processed (self (exec (addNow v) w)) = _processed (self w))
  /\ (forall w,
      settings (self (exec drain w)) = settings (self w)
      /\ _processed (self (exec drain w)) = _processed (self w))
  /\ (forall w,
      concurrency (self (exec start w)) = concurrency (self w)
      /\ delay (self (exec start w)) = delay (self w)
      /\ interval (self (exec start w)) = interval (self w)
      /\ _processed (self (exec start w)) = _processed (self w)).
Proof.
  split; [ | split; [ | split; [ | split ] ] ].
  - induction schedule as [ | t schedule IH ]; intros w w' Hrun;
      simpl in Hrun.
    + inversion Hrun. split; [reflexivity | ].
      exists []. rewrite app_nil_r. reflexivity.
    + destruct (fire t w) as [w1 | ] eqn:Hfire; [ | discriminate].
      destruct (fire_keeps t w w1 Hfire) as (Hs1 & l1 & Hp1).
      destruct (IH w1 w' Hrun) as (Hs2 & l2 & Hp2).
      split; [congruence | ].
      exists (l1 ++ l2). rewrite Hp2, Hp1, app_assoc. reflexivity.
  - intros v w. unfold exec.
    destruct (add_cases v w) as [(items & Hadd) | (e & Hadd)];
      rewrite Hadd; split; reflexivity.
  - intros v w. unfold exec, addNow, bind, this.
    destruct (add_cases v w) as [(items & Hadd) | (e & Hadd)];
      rewrite Hadd; [ | split; reflexivity ].
    cbn [self with_self set_queue _working].
    destruct (_working (self w)); cbn [negb]; [split; reflexivity | ].
    apply (dequeue_keeps
             (with_self (set_queue (_queue (self w) ++ items) (self w)) w)).
  - exact drain_keeps.
  - intros w. repeat split.
Qed.

Lemma results_are_append_only_and_settings_fixed_witness :
  run_turns [Tick; Settle 0; Settle 0; Settle 0] seven_run <> None
  /\ forall w',
      run_turns [Tick; Settle 0; Settle 0; Settle 0] seven_run = Some w' ->
      settings (self w') = settings (self seven_run)
      /\ exists l, _processed (self w') = _processed (self seven_run) ++ l.
Proof.
  split; [vm_compute; discriminate | ].
  intros w' Hrun.
  exact (proj1 results_are_append_only_and_settings_fixed
               [Tick; Settle 0; Settle 0; Settle 0] seven_run w' Hrun).
Defined.

(** *** A queued function that throws, after [start] *)

Lemma dequeue_reaches_thrower w j ex :
  _working (self w) = false ->
  forallb truthy (_queue (self w)) = true ->
  forallb launches (firstn j (_queue (self w))) = true ->
  nth_error (_queue (self w)) j = Some (VFunc (Throws ex)) ->
  j < Nat.min (Z.to_nat (concurrency (self w)))
              ((List.length (_queue (self w)) + 1) / 2) ->
  _dequeue w
  = invoke (onError (self w)) ex
      (with_self (set_queue (skipn (S j) (_queue (self w))) (self w))
                 (log (EvDispatch false) w)).
Proof.
  intros Hidle Htruthy Hlaunch Hnth Hj.
  assert (Htaken : j < taken (Z.to_nat (concurrency (self w))) 0
                             (List.length (_queue (self w))))
    by (rewrite taken_closed_form, Nat.sub_0_r; exact Hj).
  clear Hj. unfold _dequeue. unfold_monad. open_world w. subst wk.
  rewrite (collect_throws _ _ _ _ j ex) by (cbn; assumption).
  reflexivity.
Qed.

(** X14: a queued function that throws in the first batch ends the run at
    once.  After [start], the first host turn rejects the promise with the
    exception and leaves the host at rest: no batch is ever handed over,
    the reject is the only callback called, the results stay empty
    although the items in front of the function were launched, and the
    items behind it stay queued with the flag clear. *)
Theorem throwing_item_rejects_the_start_promise o items j ex :
  forallb truthy items = true ->
  forallb launches (firstn j items) = true ->
  nth_error items j = Some (VFunc (Throws ex)) ->
  j < Nat.min (Z.to_nat (concurrency (BlueBirdQueue o)))
              ((List.length items + 1) / 2) ->
  let w0 := exec (add (VArray items)) (fresh o) in
  let p := next_promise w0 in
  let ended w' :=
    state_of p (trace w') = Rejected ex
    /\ calls (trace w') = [(CbReject p, ex)]
    /\ batches_of (trace w') = []
    /\ _processed (self w') = []
    /\ _queue (self w') = skipn (S j) items
    /\ _working (self w') = false in
  (forall fuel, ended (run (S fuel) (exec start w0))
                /\ quiescent (run (S fuel) (exec start w0)) = true)
  /\ (forall schedule w',
      run_turns schedule (exec start w0) = Some w' ->
      quiescent w' = true -> ended w').
Proof.
  intros Htruthy Hlaunch Hnth Hj w0 p ended. subst p w0.
  set (w1 := exec start _).
  set (w2 := with_ticks 0 w1).
  set (w3 := log (EvCall (CbReject 0) ex)
               (with_self (set_queue (skipn (S j) items) (self w2))
                          (log (EvDispatch false) w2))).
  assert (Htick : run_turn _dequeue w2 = w3).
  { unfold run_turn.
    rewrite (dequeue_reaches_thrower w2 j ex eq_refl Htruthy Hlaunch Hnth Hj).
    reflexivity. }
  assert (Hend : ended w3) by (subst ended; repeat split).
  assert (Hrest : quiescent w3 = true) by reflexivity.
  split.
  - intros fuel.
    rewrite (run_tick_first fuel w1 0) by reflexivity.
    fold w2. rewrite Htick, run_quiescent by exact Hrest.
    split; [exact Hend | exact Hrest].
  - intros schedule w' Hrun Hquiet.
    destruct schedule as [ | t schedule ]; simpl in Hrun.
    + inversion Hrun. subst w'. discriminate.
    + destruct t as [ | h | k ]; simpl in Hrun;
        [ | discriminate | destruct k; discriminate ].
      fold w2 in Hrun. rewrite Htick in Hrun.
      destruct schedule as [ | t' schedule ]; simpl in Hrun.
      * inversion Hrun. subst w'. exact Hend.
      * rewrite (fire_quiescent t' w3 Hrest) in Hrun. discriminate.
Qed.

Lemma throwing_item_rejects_the_start_promise_witness :
  forallb truthy [factory (VNum 1); VFunc (Throws this_failed);
                  factory (VNum 3)] = true
  /\ nth_error [factory (VNum 1); VFunc (Throws this_failed);
                factory (VNum 3)] 1
     = Some (VFunc (Throws this_failed))
  /\ 1 < Nat.min (Z.to_nat (concurrency (BlueBirdQueue None))) ((3 + 1) / 2)
  /\ state_of 0
       (trace (run 1 (exec start
                        (exec (add (VArray [factory (VNum 1);
                                            VFunc (Throws this_failed);
                                            factory (VNum 3)]))
                              (fresh None)))))
     = Rejected this_failed.
Proof.
  do 2 (split; [reflexivity | ]). split; [vm_compute; lia | ].
  destruct (proj1 (throwing_item_rejects_the_start_promise None
                     [factory (VNum 1); VFunc (Throws this_failed);
                      factory (VNum 3)] 1 this_failed
                     eq_refl eq_refl eq_refl ltac:(vm_compute; lia)) 0)
    as ((Hstate & _) & _).
  exact Hstate.
Defined.

(** * The promise returned by [start] *)

(** *** Which callbacks can be called *)















(** *** The promise is new *)








(** *** [start] *)




